(** * Snowflake: a shallow embedding of the rainbow-table engine

    The C source (the rainbow-table driver) is modelled function by function.
    Target platform: x86-64 with GCC, so [char] is a signed 8-bit type,
    [unsigned int] is 32 bits, [long] is 64 bits, and 32-bit loads from a
    byte buffer are little-endian. *)

From Stdlib Require Import ZArith Lia List Bool Ascii String Permutation Sorting Strings.Byte.
Import ListNotations.
Open Scope Z_scope.

(* ------------------------------------------------------------------ *)
(** ** Machine integers and bytes *)

Definition MAX_SEED : Z := 4294967295.   (* 0xffffffff *)

(** Wrap-around of an [unsigned int]. *)
Definition u32 (x : Z) : Z := x mod 2 ^ 32.

(** Value of a byte as an [unsigned char]. *)
Definition bval (b : Byte.byte) : Z := Z.of_N (Byte.to_N b).

(** Value of a byte read through a (signed) [char]. *)
Definition schar (b : Byte.byte) : Z :=
  let v := bval b in if v <? 128 then v else v - 256.

(** [hash[k]] for a digest buffer; bytes past the list are never read by
    the code below on the inputs we consider. *)
Definition byte_at (d : list Byte.byte) (k : nat) : Byte.byte := nth k d Byte.x00.

(** [*(chainEntry * )(hash + k)]: a little-endian 32-bit load. *)
Definition load32 (d : list Byte.byte) (k : nat) : Z :=
  bval (byte_at d k) + 256 * bval (byte_at d (k + 1))
  + 65536 * bval (byte_at d (k + 2)) + 16777216 * bval (byte_at d (k + 3)).

(* ------------------------------------------------------------------ *)
(** ** [reduce] *)

(** [for (i = 0; i < hashLen / sizeof(chainEntry); i ++, hashInt ++)
       reduced ^= *hashInt;]  -- [k] iterations left, [i] the counter. *)
Fixpoint reduce_xor_loop (hash : list Byte.byte) (k i : nat) (reduced : Z) : Z :=
  match k with
  | O => reduced
  | S k' => reduce_xor_loop hash k' (S i) (Z.lxor reduced (load32 hash (4 * i)))
  end.

(** [for (i = 0; i < hashLen % sizeof(chainEntry); i++)
       reduced += (chainEntry) hash[hashLen - 1 - i];] *)
Fixpoint reduce_add_loop (hash : list Byte.byte) (hashLen : nat) (k i : nat)
    (reduced : Z) : Z :=
  match k with
  | O => reduced
  | S k' =>
      reduce_add_loop hash hashLen k' (S i)
        (u32 (reduced + u32 (schar (byte_at hash (hashLen - 1 - i)))))
  end.

Definition reduce (hash : list Byte.byte) (hashLen : nat) (round : Z) : Z :=
  let reduced := reduce_xor_loop hash (Nat.div hashLen 4) 0 0 in
  let reduced := reduce_add_loop hash hashLen (Nat.modulo hashLen 4) 0 reduced in
  Z.lxor reduced round.

(* ------------------------------------------------------------------ *)
(** ** Chains, tables and table reads *)

Record chain : Type := mkChain { startpoint : Z; endpoint : Z }.

(** The memory-mapped table holds exactly the records of the file; an
    access outside of them is reported as [Fault idx] (the C code would
    read past the mapping).  [OutOfFuel] marks a loop that did not stop
    within the iteration bound given to it. *)
Inductive outcome (A : Type) : Type :=
| Done (a : A)
| Fault (idx : Z)
| OutOfFuel.
Arguments Done {A} a.
Arguments Fault {A} idx.
Arguments OutOfFuel {A}.

Definition obind {A B} (m : outcome A) (k : A -> outcome B) : outcome B :=
  match m with
  | Done a => k a
  | Fault i => Fault i
  | OutOfFuel => OutOfFuel
  end.

Notation "x <- m ;; k" := (obind m (fun x => k))
  (at level 61, m at next level, right associativity).

(** [table[i]] *)
Definition rd (table : list chain) (i : Z) : outcome chain :=
  if (0 <=? i) && (i <? Z.of_nat (List.length table))
  then Done (nth (Z.to_nat i) table (mkChain 0 0))
  else Fault i.

(* ------------------------------------------------------------------ *)
(** ** [searchTable] *)

(** [while (mid >= 0 && endpoint == table[mid--].endpoint);]
    returns the value of [mid] after the loop. *)
Fixpoint walk_back (fuel : nat) (table : list chain) (ep : Z) (mid : Z) : outcome Z :=
  match fuel with
  | O => OutOfFuel
  | S fuel' =>
      if 0 <=? mid then
        c <- rd table mid ;;
        if ep =? endpoint c then walk_back fuel' table ep (mid - 1)
        else Done (mid - 1)
      else Done mid
  end.

(** The binary-search loop [while (beg < end) { ... }].
    [Done None] is [return 0]; [Done (Some i)] is [*index = i; return 1].
    The interval [end - beg] of 32-bit values at least halves each
    iteration, so 64 iterations are more than the loop can use. *)
Fixpoint bsearch_loop (fuel : nat) (table : list chain) (ep : Z) (beg end_ : Z)
    : outcome (option Z) :=
  match fuel with
  | O => OutOfFuel
  | S fuel' =>
      if beg <? end_ then
        let mid := u32 (beg + end_) / 2 in
        c <- rd table mid ;;
        if ep <? endpoint c then bsearch_loop fuel' table ep beg mid
        else if ep >? endpoint c then bsearch_loop fuel' table ep (u32 (mid + 1)) end_
        else
          mid' <- walk_back (S (List.length table)) table ep mid ;;
          Done (Some (u32 (if mid' <? 0 then 0 else mid' + 1)))
      else Done None
  end.

(** [unsigned int beg = 0, end = chainNum - 1;] *)
Definition searchTable (table : list chain) (chainNum : Z) (ep : Z) : outcome (option Z) :=
  bsearch_loop 64 table ep 0 (u32 (chainNum - 1)).

(* ------------------------------------------------------------------ *)
(** ** Hash functions and [regenerateChain] *)

(** A hash function maps a seed to the digest it writes into the scratch
    buffer (and returns). *)
Definition hashFuncPtr : Type := Z -> list Byte.byte.

(** [!memcmp(a, b, n)] *)
Definition memeq (a b : list Byte.byte) (n : nat) : bool :=
  if list_eq_dec Byte.byte_eq_dec (firstn n a) (firstn n b) then true else false.

(** [for (i = 0; i < chainLen; i ++) { if (!memcmp(hashFunc(tmp, buf), targetHash,
    hashLen)) { *seed = tmp; return 1; } tmp = reduce(buf, hashLen, i); }]
    [k] iterations are left, [i] is the counter. *)
Fixpoint regen_loop (hashFunc : hashFuncPtr) (hashLen : nat) (targetHash : list Byte.byte)
    (k i : nat) (tmp : Z) : option Z :=
  match k with
  | O => None
  | S k' =>
      let buf := hashFunc tmp in
      if memeq buf targetHash hashLen then Some tmp
      else regen_loop hashFunc hashLen targetHash k' (S i) (reduce buf hashLen (Z.of_nat i))
  end.

(** [Some seed] is [*seed = seed; return 1]; [None] is [return 0]. *)
Definition regenerateChain (startpoint : Z) (chainLen : nat) (hashFunc : hashFuncPtr)
    (hashLen : nat) (targetHash : list Byte.byte) : option Z :=
  regen_loop hashFunc hashLen targetHash chainLen 0 startpoint.

(* ------------------------------------------------------------------ *)
(** ** [searchHashInMemory] *)

(** [for (i = j; i < chainLen-1; i ++) { r = reduce(tmpHash, hashLen, i);
    tmpHash = hashFunc(r, buf); }] with [k = chainLen - 1 - j] iterations. *)
Fixpoint walk_hash (hashFunc : hashFuncPtr) (hashLen : nat) (k i : nat)
    (tmpHash : list Byte.byte) : list Byte.byte :=
  match k with
  | O => tmpHash
  | S k' => walk_hash hashFunc hashLen k' (S i) (hashFunc (reduce tmpHash hashLen (Z.of_nat i)))
  end.

(** [do { if (regenerateChain(table[index++].startpoint, ...)) return 1; }
    while (table[index].endpoint == r);]
    [Done (Some s)] is [return 1] with [*seed = s], [Done None] leaves the
    do-while loop. *)
Fixpoint enum_candidates (fuel : nat) (table : list chain) (chainLen : nat)
    (hashFunc : hashFuncPtr) (hashLen : nat) (targetHash : list Byte.byte)
    (r : Z) (index : Z) : outcome (option Z) :=
  match fuel with
  | O => OutOfFuel
  | S fuel' =>
      c <- rd table index ;;
      match regenerateChain (startpoint c) chainLen hashFunc hashLen targetHash with
      | Some s => Done (Some s)
      | None =>
          c' <- rd table (index + 1) ;;
          if endpoint c' =? r
          then enum_candidates fuel' table chainLen hashFunc hashLen targetHash r (index + 1)
          else Done None
      end
  end.

(** The body of [for (j = chainLen - 1; j >= 0; j --)] for column [j]. *)
Definition search_column (table : list chain) (chainNum chainLen : nat)
    (hashFunc : hashFuncPtr) (hashLen : nat) (targetHash : list Byte.byte) (j : nat)
    : outcome (option Z) :=
  let tmpHash := walk_hash hashFunc hashLen (chainLen - 1 - j) j targetHash in
  (* after the inner loop, [i = chainLen - 1] *)
  let r := reduce tmpHash hashLen (Z.of_nat (chainLen - 1)) in
  found <- searchTable table (Z.of_nat chainNum) r ;;
  match found with
  | None => Done None
  | Some index =>
      enum_candidates (S (List.length table)) table chainLen hashFunc hashLen targetHash r index
  end.

(** Columns [j = js - 1, ..., 0]. *)
Fixpoint search_columns (table : list chain) (chainNum chainLen : nat)
    (hashFunc : hashFuncPtr) (hashLen : nat) (targetHash : list Byte.byte) (js : nat)
    : outcome (option Z) :=
  match js with
  | O => Done None
  | S j =>
      res <- search_column table chainNum chainLen hashFunc hashLen targetHash j ;;
      match res with
      | Some s => Done (Some s)
      | None => search_columns table chainNum chainLen hashFunc hashLen targetHash j
      end
  end.

(** [Done (Some s)] is [return 1] with [*seed = s]; [Done None] is [return 0].
    The loop [for (j = chainLen - 1; j >= 0; j --)] has an [int j]: the
    unsigned [chainLen - 1] converted to [int] is non-negative exactly when
    [1 <= chainLen <= 2^31], and then columns [chainLen - 1, ..., 0] are
    searched; otherwise [j] starts negative and no column is searched. *)
Definition searchHashInMemory (table : list chain) (chainNum chainLen : nat)
    (hashFunc : hashFuncPtr) (hashLen : nat) (targetHash : list Byte.byte)
    : outcome (option Z) :=
  search_columns table chainNum chainLen hashFunc hashLen targetHash
    (if Z.of_nat chainLen <=? 2 ^ 31 then chainLen else O).

(* ------------------------------------------------------------------ *)
(** ** Exhaustive search: [searchHashOnline] and [seedRecoveryWorker] *)

(** The range-assignment loop of [searchHashOnline]:
    [for (i = 0; i < threads; i ++) { opt[i].start = start;
       opt[i].end = (i == threads - 1)? end : (start + range); ...;
       start += range; }]
    with [k] iterations left and counter [i]; yields [(start, end)] per worker. *)
Fixpoint assign_ranges (threads range : Z) (k : nat) (i : Z) (start : Z) : list (Z * Z) :=
  match k with
  | O => []
  | S k' =>
      (start, if i =? threads - 1 then MAX_SEED else u32 (start + range))
        :: assign_ranges threads range k' (i + 1) (u32 (start + range))
  end.

(** [unsigned int range = MAX_SEED / threads;] then the loop above. *)
Definition worker_ranges (threads : Z) : list (Z * Z) :=
  assign_ranges threads (MAX_SEED / threads) (Z.to_nat threads) 0 0.

(** Seed [s] lies in the range [[lo, hi]] of a worker. *)
Definition in_range (s : Z) (rg : Z * Z) : bool := (fst rg <=? s) && (s <=? snd rg).

(** Number of workers whose range contains [s]. *)
Definition owners (threads s : Z) : nat :=
  List.length (filter (in_range s) (worker_ranges threads)).

(** The loop of [seedRecoveryWorker]:
    [for (i = opt->start; i <= opt->end; i++) {
       if (!memcmp(opt->hash, opt->hashFunc(i, nh), opt->hashLen)) {
         *found = 1; *seed = i; }
       if ( *found ) break; }]
    The state is the counter and the shared cells [found] and [seed]
    (written by this worker only when it is the single worker).
    [Done (found, seed)] is the return of the worker; [OutOfFuel] means
    the loop was still running after [fuel] iterations. *)
Fixpoint worker_loop (fuel : nat) (hashFunc : hashFuncPtr) (hashLen : nat)
    (hash : list Byte.byte) (end_ : Z) (i : Z) (found : bool) (seed : Z)
    : outcome (bool * Z) :=
  match fuel with
  | O => OutOfFuel
  | S fuel' =>
      if i <=? end_ then
        let '(found, seed) :=
          if memeq hash (hashFunc i) hashLen then (true, i) else (found, seed) in
        if found then Done (found, seed)
        else worker_loop fuel' hashFunc hashLen hash end_ (u32 (i + 1)) found seed
      else Done (found, seed)
  end.

Definition seedRecoveryWorker (fuel : nat) (hashFunc : hashFuncPtr) (hashLen : nat)
    (hash : list Byte.byte) (start end_ : Z) (found : bool) (seed : Z)
    : outcome (bool * Z) :=
  worker_loop fuel hashFunc hashLen hash end_ start found seed.

(* ------------------------------------------------------------------ *)
(** ** C strings, [snprintf] / [sscanf] with [%s] and [%u], [basename] *)

(** A C string is the list of its characters before the terminating NUL. *)
Definition cstring : Type := list ascii.

(** [isspace] in the C locale. *)
Definition is_space (c : ascii) : bool :=
  match nat_of_ascii c with
  | 32 | 9 | 10 | 11 | 12 | 13 => true
  | _ => false
  end%nat.

Definition is_digit (c : ascii) : bool :=
  (48 <=? nat_of_ascii c)%nat && (nat_of_ascii c <=? 57)%nat.

Definition digit_val (c : ascii) : Z := Z.of_nat (nat_of_ascii c) - 48.

(** Directives of a format string. *)
Inductive directive : Type :=
| Conv_s
| Conv_u
| Chr (c : ascii).

Fixpoint parse_fmt (f : list ascii) : list directive :=
  match f with
  | "%"%char :: "s"%char :: f' => Conv_s :: parse_fmt f'
  | "%"%char :: "u"%char :: f' => Conv_u :: parse_fmt f'
  | c :: f' => Chr c :: parse_fmt f'
  | [] => []
  end.

(** Arguments of [printf] / values stored by [scanf]. *)
Inductive farg : Type :=
| AStr (s : cstring)
| AUint (n : Z).

(** [%u] of an [unsigned int] (at most 10 decimal digits). *)
Definition digit_char (d : Z) : ascii := ascii_of_nat (48 + Z.to_nat d).

Fixpoint utoa_aux (fuel : nat) (n : Z) (acc : list ascii) : list ascii :=
  match fuel with
  | O => acc
  | S f =>
      let acc' := digit_char (n mod 10) :: acc in
      if n <? 10 then acc' else utoa_aux f (n / 10) acc'
  end.

Definition fmt_u (n : Z) : list ascii := utoa_aux 10 n [].

Fixpoint sprintf (ds : list directive) (args : list farg) : list ascii :=
  match ds, args with
  | Conv_s :: ds', AStr s :: args' => s ++ sprintf ds' args'
  | Conv_u :: ds', AUint n :: args' => fmt_u n ++ sprintf ds' args'
  | Chr c :: ds', _ => c :: sprintf ds' args
  | _, _ => []
  end.

(** [snprintf(buffer, size, ...)] keeps at most [size - 1] characters. *)
Definition snprintf (size : nat) (fmt : string) (args : list farg) : cstring :=
  firstn (size - 1) (sprintf (parse_fmt (list_ascii_of_string fmt)) args).

Fixpoint skip_ws (s : list ascii) : list ascii :=
  match s with
  | c :: s' => if is_space c then skip_ws s' else s
  | [] => []
  end.

(** Longest prefix whose characters satisfy [p], and the rest. *)
Fixpoint span (p : ascii -> bool) (s : list ascii) : list ascii * list ascii :=
  match s with
  | c :: s' => if p c then let '(w, r) := span p s' in (c :: w, r) else ([], s)
  | [] => ([], [])
  end.

Definition digits_value (ds : list ascii) : Z :=
  fold_left (fun acc c => acc * 10 + digit_val c) ds 0.

(** Value stored by [%u]: [strtoul] (saturating at [ULONG_MAX], negating
    for a leading [-]), converted to [unsigned int]. *)
Definition scan_u_value (neg : bool) (ds : list ascii) : Z :=
  let n := digits_value ds in
  let v := if n >? 2 ^ 64 - 1 then 2 ^ 64 - 1
           else if neg then (- n) mod 2 ^ 64 else n in
  u32 v.

(** [%s]: skip white space, then read a non-empty run of non-blank
    characters; fails at the end of the input. *)
Definition scan_s (inp : list ascii) : option (list ascii * list ascii) :=
  match skip_ws inp with
  | [] => None
  | inp' => Some (span (fun c => negb (is_space c)) inp')
  end.

(** Optional sign in front of the digits of [%u]. *)
Definition split_sign (inp : list ascii) : bool * list ascii :=
  match inp with
  | "-"%char :: r => (true, r)
  | "+"%char :: r => (false, r)
  | _ => (false, inp)
  end.

(** [%u]: skip white space, optional sign, a non-empty run of digits. *)
Definition scan_u (inp : list ascii) : option (Z * list ascii) :=
  let '(neg, inp') := split_sign (skip_ws inp) in
  match span is_digit inp' with
  | ([], _) => None
  | (dds, rest) => Some (scan_u_value neg dds, rest)
  end.

(** The values [sscanf] stores, in order, up to the first failure; a blank
    in the format skips any white space, another character must match. *)
Fixpoint sscanf (ds : list directive) (inp : list ascii) : list farg :=
  match ds with
  | [] => []
  | Conv_s :: ds' =>
      match scan_s inp with
      | Some (w, rest) => AStr w :: sscanf ds' rest
      | None => []
      end
  | Conv_u :: ds' =>
      match scan_u inp with
      | Some (n, rest) => AUint n :: sscanf ds' rest
      | None => []
      end
  | Chr c :: ds' =>
      if is_space c then sscanf ds' (skip_ws inp)
      else match inp with
           | c' :: rest => if Ascii.eqb c c' then sscanf ds' rest else []
           | [] => []
           end
  end.

(** POSIX [basename] from [<libgen.h>] (glibc [__xpg_basename]). *)
Definition is_slash (c : ascii) : bool := Ascii.eqb c "/"%char.

Fixpoint drop_while (p : ascii -> bool) (s : list ascii) : list ascii :=
  match s with
  | c :: s' => if p c then drop_while p s' else s
  | [] => []
  end.

Definition basename (path : cstring) : cstring :=
  match path with
  | [] => ["."%char]
  | _ =>
      let t := rev (drop_while is_slash (rev path)) in
      match t with
      | [] => ["/"%char]
      | _ => rev (fst (span (fun c => negb (is_slash c)) (rev t)))
      end
  end.

(* ------------------------------------------------------------------ *)
(** ** Table names: [generateTableName] and [parseTablename] *)

(** [snprintf(buffer, 512, "%s.%u.%u.%u.rt", hashName, chainNum, chainLen, index);
    return strdup(buffer);] *)
Definition generateTableName (hashName : cstring) (chainNum chainLen index : Z) : cstring :=
  snprintf 512 "%s.%u.%u.%u.rt" [AStr hashName; AUint chainNum; AUint chainLen; AUint index].

(** [strchr(s, c)] as a position. *)
Fixpoint strchr (s : list ascii) (c : ascii) : option nat :=
  match s with
  | [] => None
  | c' :: s' => if Ascii.eqb c' c then Some O else option_map S (strchr s' c)
  end.

(** [s[k] = c] *)
Fixpoint set_char (s : list ascii) (k : nat) (c : ascii) : list ascii :=
  match s, k with
  | [], _ => []
  | _ :: s', O => c :: s'
  | c' :: s', S k' => c' :: set_char s' k' c
  end.

(** What [parseTablename] returns and writes through its out-parameters;
    [None] means the out-parameter is left untouched. *)
Record parse_result : Type := mkParse {
  ret : Z;
  out_hashFuncName : option cstring;
  out_chainNum : option Z;
  out_chainLen : option Z }.

Definition arg_str (a : option farg) : option cstring :=
  match a with Some (AStr s) => Some s | _ => None end.

Definition arg_uint (a : option farg) : option Z :=
  match a with Some (AUint n) => Some n | _ => None end.

(** [dotPos = strchr(tableBasename, '.'); if (dotPos == NULL) return -1;
    *dotPos = ' '; sscanf(tableBasename, "%s %u.%u.%u.rt", hashFuncName,
    chainNum, chainLen, &index); *dotPos = '.'; return 1;]
    (The 64-byte [hashFuncName] buffer of the caller is not modelled.) *)
Definition parseTablename (tablename : cstring) : parse_result :=
  let tableBasename := basename tablename in
  match strchr tableBasename "."%char with
  | None => mkParse (-1) None None None
  | Some k =>
      let vals := sscanf (parse_fmt (list_ascii_of_string "%s %u.%u.%u.rt"))
                         (set_char tableBasename k " "%char) in
      mkParse 1 (arg_str (nth_error vals 0)) (arg_uint (nth_error vals 1))
                (arg_uint (nth_error vals 2))
  end.

(** The directives of the two formats, as [parse_fmt] reads them. *)
Definition tablename_fmt : list directive :=
  [Conv_s; Chr "."%char; Conv_u; Chr "."%char; Conv_u; Chr "."%char; Conv_u;
   Chr "."%char; Chr "r"%char; Chr "t"%char].

Definition tablename_scan_fmt : list directive :=
  [Conv_s; Chr " "%char; Conv_u; Chr "."%char; Conv_u; Chr "."%char; Conv_u;
   Chr "."%char; Chr "r"%char; Chr "t"%char].

(* ------------------------------------------------------------------ *)
(** ** [quickSortTable] *)

(** Conversion of an integer to a 32-bit [int] (two's complement). *)
Definition to_int32 (x : Z) : Z :=
  let y := u32 x in if y <? 2 ^ 31 then y else y - 2 ^ 32.

(** [t[i] = c] on a list, positions past the end left alone. *)
Fixpoint upd (t : list chain) (i : nat) (c : chain) : list chain :=
  match t, i with
  | [], _ => []
  | _ :: t', O => c :: t'
  | c' :: t', S i' => c' :: upd t' i' c
  end.

(** [table[i]] and [table[i] = c] for the indices the sort touches, which
    lie inside the array. *)
Definition get (t : list chain) (i : Z) : chain := nth (Z.to_nat i) t (mkChain 0 0).
Definition put (t : list chain) (i : Z) (c : chain) : list chain := upd t (Z.to_nat i) c.

(** [swap(&table[i], &table[j])]: [chain t=*a; *a=*b; *b=t;] *)
Definition swap (t : list chain) (i j : Z) : list chain :=
  let a := get t i in
  let b := get t j in
  put (put t i b) j a.

(** [while (l < r) { if (table[l].endpoint <= piv) l++;
                     else swap(&table[l], &table[--r]); }]
    [piv] is an [int], converted back to [unsigned int] by the comparison.
    Each iteration shrinks [r - l] by one. *)
Fixpoint partition_loop (fuel : nat) (t : list chain) (piv l r : Z) : list chain * Z * Z :=
  match fuel with
  | O => (t, l, r)
  | S f =>
      if l <? r then
        if endpoint (get t l) <=? u32 piv then partition_loop f t piv (l + 1) r
        else partition_loop f (swap t l (r - 1)) piv l (r - 1)
      else (t, l, r)
  end.

(** [if (end > beg + 1) { int piv = table[beg].endpoint, l = beg+1, r = end;
       <partition>; swap(&table[--l], &table[beg]);
       quickSortTable(table, beg, l); quickSortTable(table, r, end); }]
    The recursion depth is bounded by [end - beg]. *)
Fixpoint qsort (fuel : nat) (t : list chain) (beg end_ : Z) : list chain :=
  match fuel with
  | O => t
  | S f =>
      if u32 (beg + 1) <? end_ then
        let piv := to_int32 (endpoint (get t beg)) in
        let l := to_int32 (u32 (beg + 1)) in
        let r := to_int32 end_ in
        let '(t1, l1, r1) := partition_loop (Z.to_nat (r - l)) t piv l r in
        let l2 := l1 - 1 in
        let t2 := swap t1 l2 beg in
        let t3 := qsort f t2 beg (u32 l2) in
        qsort f t3 (u32 r1) end_
      else t
  end.

Definition quickSortTable (table : list chain) (beg end_ : Z) : list chain :=
  qsort (Z.to_nat (end_ - beg)) table beg end_.

(** [table[i].endpoint <= table[i+1].endpoint] for all [i < chainNum - 1]. *)
Definition sorted_by_endpoint (table : list chain) (chainNum : Z) : Prop :=
  forall i, 0 <= i -> i + 1 < chainNum -> endpoint (get table i) <= endpoint (get table (i + 1)).

(* ------------------------------------------------------------------ *)
(** ** Reference formulations used in the statements *)

(** The reduction as the specification describes it: the XOR of the first
    [hashLen / 4] little-endian words, plus the last [hashLen mod 4] bytes
    (each turned into a 32-bit addend by [contrib]), modulo [2^32], XOR
    [round]. *)
Definition word_le (d : list Byte.byte) (k : nat) : Z :=
  fold_right (fun j acc => acc + bval (byte_at d (4 * k + j)) * 256 ^ Z.of_nat j)
    0 [0; 1; 2; 3]%nat.

Definition xor_words (d : list Byte.byte) (n : nat) : Z :=
  fold_left Z.lxor (map (word_le d) (seq 0 n)) 0.

Definition tail_bytes (d : list Byte.byte) (hashLen : nat) : list Byte.byte :=
  map (fun i => byte_at d (hashLen - 1 - i)) (seq 0 (Nat.modulo hashLen 4)).

Definition reduce_spec (contrib : Byte.byte -> Z) (d : list Byte.byte) (hashLen : nat)
    (round : Z) : Z :=
  Z.lxor (u32 (xor_words d (Nat.div hashLen 4)
               + fold_left Z.add (map contrib (tail_bytes d hashLen)) 0)) round.

(** A trailing byte read as a signed [char] and widened to [unsigned int]. *)
Definition contrib_signed (b : Byte.byte) : Z :=
  if bval b <? 128 then bval b else u32 (bval b - 256).

(** The seeds of a chain: [s_0 = start], [s_{j+1} = reduce(H(s_j), hashLen, j)]. *)
Fixpoint chain_seed (hashFunc : hashFuncPtr) (hashLen : nat) (start : Z) (k : nat) : Z :=
  match k with
  | O => start
  | S j => reduce (hashFunc (chain_seed hashFunc hashLen start j)) hashLen (Z.of_nat j)
  end.

(** Hash names [parseTablename] reads back: non-empty, fitting the 64-byte
    [hashFuncName] buffer, without [.], [/], NUL or white space. *)
Definition name_char_ok (c : ascii) : bool :=
  negb (Ascii.eqb c "."%char) && negb (is_slash c) && negb (is_space c)
  && negb (Ascii.eqb c Ascii.zero).

Definition valid_hash_name (name : cstring) : Prop :=
  name <> [] /\ (List.length name <= 63)%nat /\ forallb name_char_ok name = true.

(* ------------------------------------------------------------------ *)
(** ** The CMWC generator of [rand.c] ([rand_cmwc_r] feeds [generateChain]) *)

Definition PHI : Z := 2654435769.   (* 0x9e3779b9 *)

(** [Q[i] = c] on the state array. *)
Fixpoint zupd (q : list Z) (i : nat) (v : Z) : list Z :=
  match q, i with
  | [], _ => []
  | _ :: q', O => v :: q'
  | x :: q', S i' => x :: zupd q' i' v
  end.

(** [for (i = 3; i < 4096; i++) Q[i] = Q[i - 3] ^ Q[i - 2] ^ PHI ^ i;]
    with [k] iterations left; [q3 q2 q1] are [Q[i-3]], [Q[i-2]], [Q[i-1]]. *)
Fixpoint srand_fill (k : nat) (i q3 q2 q1 : Z) : list Z :=
  match k with
  | O => []
  | S k' =>
      let v := Z.lxor (Z.lxor (Z.lxor q3 q2) PHI) i in
      v :: srand_fill k' (i + 1) q2 q1 v
  end.

(** [srand_cmwc(x)]: the new contents of [Q]. *)
Definition srand_cmwc (x : Z) : list Z :=
  let q0 := x in
  let q1 := u32 (x + PHI) in
  let q2 := u32 (x + PHI + PHI) in
  [q0; q1; q2] ++ srand_fill 4093 3 q0 q1 q2.

(** The static state of [rand.c]: [Q], [c], the static [i] of
    [rand_cmwc] and [seeded]. *)
Record cmwc_state : Type := mkCmwc {
  cmwc_Q : list Z;
  cmwc_c : Z;
  cmwc_i : Z;
  cmwc_seeded : bool }.

Definition cmwc_init : cmwc_state := mkCmwc (repeat 0 4096) 362436 4095 false.

(** [rand_cmwc()]; [tv] is the value [tv.tv_sec ^ tv.tv_usec] that
    [custom_seed] would read from [gettimeofday] on the first call. *)
Definition rand_cmwc (tv : Z) (st : cmwc_state) : Z * cmwc_state :=
  let st := if cmwc_seeded st then st
            else mkCmwc (srand_cmwc (u32 tv)) (cmwc_c st) (cmwc_i st) true in
  let i := Z.land (u32 (cmwc_i st + 1)) 4095 in
  let qi := nth (Z.to_nat i) (cmwc_Q st) 0 in
  let t := 18782 * qi + cmwc_c st in
  let c := u32 (Z.shiftr t 32) in
  let x := u32 (t + c) in
  let '(x, c) := if x <? c then (u32 (x + 1), u32 (c + 1)) else (x, c) in
  let r := u32 (4294967294 - x) in
  (r, mkCmwc (zupd (cmwc_Q st) (Z.to_nat i) r) c i true).

(* ------------------------------------------------------------------ *)
(** ** Table generation: [generateChain], [chainGenerationWorker],
       [createRainbowTable], [sortRainbowTable], [generateRainbowTable] *)

(** [for (; i < chainLen; i ++) tmp = reduce(hash(tmp, buf), hashLen, i);] *)
Fixpoint gen_loop (hash : hashFuncPtr) (hashLen : nat) (k i : nat) (tmp : Z) : Z :=
  match k with
  | O => tmp
  | S k' => gen_loop hash hashLen k' (S i) (reduce (hash tmp) hashLen (Z.of_nat i))
  end.

(** [result.startpoint = tmp = rand_cmwc_r(); <loop>; result.endpoint = tmp;] *)
Definition generateChain (hash : hashFuncPtr) (chainLen hashLen : nat) (tv : Z)
    (st : cmwc_state) : chain * cmwc_state :=
  let '(s, st') := rand_cmwc tv st in
  (mkChain s (gen_loop hash hashLen chainLen 0 s), st').

(** [for (j = 0; j < chainsLeft; j ++) buffer[j] = generateChain(...);] *)
Fixpoint gen_chains (hash : hashFuncPtr) (chainLen hashLen : nat) (tv : Z) (n : nat)
    (st : cmwc_state) : list chain * cmwc_state :=
  match n with
  | O => ([], st)
  | S n' =>
      let '(ch, st1) := generateChain hash chainLen hashLen tv st in
      let '(rest, st2) := gen_chains hash chainLen hashLen tv n' st1 in
      (ch :: rest, st2)
  end.

Definition WORKER_BUFFER_SIZE : Z := 8192.

(** The table file: the records written so far and the number of records
    the device can still take.  [fwrite] stores as many records as fit and
    returns their number.  This is exact while every chunk fits: the stream
    then accepts each chunk in full and all of it reaches the file by the
    [fclose].  When the device is full, the fully buffered stream of
    [fopen] may still accept a chunk that fits its buffer and fail only at
    the (unchecked) [fclose]; the short counts below are not a model of
    that case, and no statement below depends on them. *)
Record table_file : Type := mkFile { file_data : list chain; file_room : nat }.

Definition fwrite (buf : list chain) (f : table_file) : nat * table_file :=
  let n := Nat.min (List.length buf) (file_room f) in
  (n, mkFile (file_data f ++ firstn n buf) (file_room f - n)).

(** [for (i = 0; i < data->chainNum / WORKER_BUFFER_SIZE + 1; i ++) {
       chainsLeft = (i < data->chainNum / WORKER_BUFFER_SIZE)? WORKER_BUFFER_SIZE
                    : data->chainNum % WORKER_BUFFER_SIZE;
       <generate chainsLeft chains>;
       if (fwrite(buffer, sizeof(chain), chainsLeft, ...) != chainsLeft) return -1; }
     return 0;]  with [k] iterations left and counter [i]. *)
Fixpoint worker_chunks (hash : hashFuncPtr) (chainNum chainLen hashLen : nat) (tv : Z)
    (k : nat) (i : Z) (st : cmwc_state) (f : table_file) : Z * cmwc_state * table_file :=
  match k with
  | O => (0, st, f)
  | S k' =>
      let chainsLeft := if i <? Z.of_nat chainNum / WORKER_BUFFER_SIZE then WORKER_BUFFER_SIZE
                        else Z.of_nat chainNum mod WORKER_BUFFER_SIZE in
      let '(buffer, st1) := gen_chains hash chainLen hashLen tv (Z.to_nat chainsLeft) st in
      let '(written, f1) := fwrite buffer f in
      if negb (Z.of_nat written =? chainsLeft) then (-1, st1, f1)
      else worker_chunks hash chainNum chainLen hashLen tv k' (i + 1) st1 f1
  end.

(** [chainGenerationWorker] for one worker, run under the mutex. *)
Definition chainGenerationWorker (hash : hashFuncPtr) (chainNum chainLen hashLen : nat)
    (tv : Z) (st : cmwc_state) (f : table_file) : Z * cmwc_state * table_file :=
  worker_chunks hash chainNum chainLen hashLen tv
    (Z.to_nat (Z.of_nat chainNum / WORKER_BUFFER_SIZE + 1)) 0 st f.

(** [if (conf <= 0) threadNum = 1; else threadNum = conf;] *)
Definition threadNum (conf : Z) : Z := if conf <=? 0 then 1 else u32 conf.

(** [args[i].chainNum = (i < threadNum - 1)?
       chainNum / threadNum : chainNum / threadNum + chainNum % threadNum;]
    for [i = 0, ..., threadNum - 1]. *)
Fixpoint share_loop (T chainNum : Z) (k : nat) (i : Z) : list Z :=
  match k with
  | O => []
  | S k' =>
      (if i <? u32 (T - 1) then chainNum / T else u32 (chainNum / T + chainNum mod T))
        :: share_loop T chainNum k' (i + 1)
  end.

Definition worker_shares (T chainNum : Z) : list Z := share_loop T chainNum (Z.to_nat T) 0.

(** Outcome of the system calls of [sortRainbowTable]. *)
Record sort_env : Type := mkSortEnv { open_ok : bool; fstat_ok : bool; mmap_ok : bool }.

(** [sortRainbowTable(tableName, chainNum)]: the return value and the table
    file contents afterwards.  Exact when [mmap] fails, and when the file
    holds [chainNum < 2^31] records (then every access of [quickSortTable]
    is inside the table); with fewer records the C code accesses the
    mapping past the records, which [get] and [put] do not describe. *)
Definition sortRainbowTable (env : sort_env) (table : list chain) (chainNum : Z)
    : Z * list chain :=
  if negb (open_ok env) then (-1, table)
  else if negb (fstat_ok env) then (-1, table)
  else if negb (mmap_ok env) then (1, table)
  else (1, quickSortTable table 0 chainNum).

(* ------------------------------------------------------------------ *)
(** ** [resolveHashFunc] *)

Record hashFuncEntry : Type := mkEntry {
  hashName : cstring;
  hashFunc : hashFuncPtr;
  hashLen : Z }.

(** What [dlopen("./hashlib<i>.so")] and [dlsym(handle, "hashFuncArray")]
    give: no library, a library without the array, or the entries of the
    array before its terminating [{0, 0, 0}]. *)
Inductive hashlib : Type :=
| NoLib
| NoArray
| Lib (entries : list hashFuncEntry).

Definition MAX_HASHLIBS : nat := 10.

(** [!strcmp(a, b)] *)
Definition streq (a b : cstring) : bool :=
  if list_eq_dec ascii_dec a b then true else false.

(** [while (hf->hashName != NULL) { if (!strcmp(hf->hashName, hashFuncName))
       { *hashLen = hf -> hashLen; return hf->hashFunc; } hf ++; }] *)
Fixpoint find_entry (hf : list hashFuncEntry) (hashFuncName : cstring)
    : option hashFuncEntry :=
  match hf with
  | [] => None
  | e :: hf' => if streq (hashName e) hashFuncName then Some e else find_entry hf' hashFuncName
  end.

(** [for (i = 0; i < MAX_HASHLIBS; i ++) { ... }] with [k] iterations left. *)
Fixpoint resolve_loop (libs : nat -> hashlib) (hashFuncName : cstring) (k i : nat)
    : option hashFuncEntry :=
  match k with
  | O => None
  | S k' =>
      match libs i with
      | Lib hf =>
          match find_entry hf hashFuncName with
          | Some e => Some e
          | None => resolve_loop libs hashFuncName k' (S i)
          end
      | _ => resolve_loop libs hashFuncName k' (S i)
      end
  end.

(** [Some e]: the function [hashFunc e] is returned and [*hashLen] is set to
    [hashLen e]; [None] is [return NULL]. *)
Definition resolveHashFunc (libs : nat -> hashlib) (hashFuncName : cstring)
    : option hashFuncEntry :=
  resolve_loop libs hashFuncName MAX_HASHLIBS 0.

(** [generateRainbowTable(chainNum, chainLen, index, hashName)].
    [create e] is the outcome of [createRainbowTable] for the resolved
    entry: its return value and the records in the table file afterwards.
    It is an input, as the outcomes of the system calls are: the order in
    which the threads append their chunks is up to the scheduler, and what
    a buffered stream leaves in the file on a full device is not modelled.
    The result is the return value and the table file afterwards. *)
Definition generateRainbowTable (libs : nat -> hashlib) (create : hashFuncEntry -> Z * list chain)
    (env : sort_env) (chainNum : Z) (hashName : cstring) : Z * list chain :=
  match resolveHashFunc libs hashName with
  | None => (-1, [])
  | Some e =>
      let '(rc, table) := create e in
      if rc <? 0 then (-1, table)
      else
        let '(rs, table') := sortRainbowTable env table chainNum in
        if rs <? 0 then (-1, table') else (1, table')
  end.

(* ------------------------------------------------------------------ *)
(** ** [searchRainbowTable] and [searchHashOnline] *)

(** [searchRainbowTable(tableName, targetHash, &seed)].  [files name] is the
    mapped table when [open], [fstat] and [mmap] succeed.  Out-parameters
    that [parseTablename] leaves unwritten keep the indeterminate values
    [name0], [cn0], [cl0] of the caller's locals.  The result is the return
    value and the seed stored. *)
Definition searchRainbowTable (libs : nat -> hashlib) (files : cstring -> option (list chain))
    (name0 : cstring) (cn0 cl0 : Z) (tableName : cstring) (targetHash : list Byte.byte)
    : outcome (Z * option Z) :=
  let p := parseTablename tableName in
  if ret p <? 0 then Done (-1, None)
  else
    let hashFuncName := match out_hashFuncName p with Some s => s | None => name0 end in
    let chainNum := match out_chainNum p with Some n => n | None => cn0 end in
    let chainLen := match out_chainLen p with Some n => n | None => cl0 end in
    match resolveHashFunc libs hashFuncName with
    | None => Done (-1, None)
    | Some e =>
        match files tableName with
        | None => Done (-1, None)
        | Some table =>
            found <- searchHashInMemory table (Z.to_nat chainNum) (Z.to_nat chainLen)
                       (hashFunc e) (Z.to_nat (hashLen e)) targetHash ;;
            match found with
            | Some s => Done (1, Some s)
            | None => Done (0, None)
            end
        end
    end.

(** [searchHashOnline(hashFuncName, targetHash, &seed)]: [return 0] when the
    function cannot be resolved; otherwise the value of the shared
    [unsigned short found] after the [pthread_join]s, which only ever store
    1 in it.  [workers e] is [Some (found, seed)] when every worker returns,
    with whether one of them stored 1 and the value of [*seed] afterwards;
    it is [None] when a worker never returns, so that [pthread_join] waits
    forever (as the last worker does when no seed matches, see
    [seedRecoveryWorker_runs_forever]).  [seed0] is [*seed] on entry.  The
    result, when the function returns, is the return value and [*seed]. *)
Definition searchHashOnline (libs : nat -> hashlib)
    (workers : hashFuncEntry -> option (bool * Z))
    (seed0 : Z) (hashFuncName : cstring) : option (Z * Z) :=
  match resolveHashFunc libs hashFuncName with
  | None => Some (0, seed0)
  | Some e =>
      match workers e with
      | None => None
      | Some (found, seed) => Some (if found then 1 else 0, seed)
      end
  end.

(* ------------------------------------------------------------------ *)
(** ** [bytesFromHash] *)

Definition is_xdigit (c : ascii) : bool :=
  let n := nat_of_ascii c in
  (((48 <=? n) && (n <=? 57)) || ((97 <=? n) && (n <=? 102)) || ((65 <=? n) && (n <=? 70)))%nat.

Definition xdigit_val (c : ascii) : Z :=
  let n := Z.of_nat (nat_of_ascii c) in
  if n <=? 57 then n - 48 else if n <=? 70 then n - 55 else n - 87.

Definition xdigits_value (ds : list ascii) : Z :=
  fold_left (fun acc c => acc * 16 + xdigit_val c) ds 0.

(** The optional [0x] / [0X] in front of the digits of [%x]. *)
Definition drop_0x (inp : list ascii) : list ascii :=
  match inp with
  | "0"%char :: x :: c :: r =>
      if (Ascii.eqb x "x"%char || Ascii.eqb x "X"%char) && is_xdigit c then c :: r else inp
  | _ => inp
  end.

(** [sscanf(num, "%x", &hexnum)]: [Some v] when a value is stored. *)
Definition scan_x (inp : list ascii) : option Z :=
  let '(neg, inp') := split_sign (skip_ws inp) in
  match span is_xdigit (drop_0x inp') with
  | ([], _) => None
  | (ds, _) =>
      let n := xdigits_value ds in
      let v := if n >? 2 ^ 64 - 1 then 2 ^ 64 - 1 else if neg then (- n) mod 2 ^ 64 else n in
      Some (u32 v)
  end.

(** The C string held by [num] after [num[0] = hash[i]; num[1] = hash[i + 1];]
    ([num[2]] is NUL). *)
Definition num_string (c0 c1 : ascii) : cstring :=
  if Ascii.eqb c0 Ascii.zero then []
  else if Ascii.eqb c1 Ascii.zero then [c0] else [c0; c1].

(** [(char) hexnum] *)
Definition byte_of_Z (z : Z) : Byte.byte :=
  match Byte.of_N (Z.to_N (z mod 256)) with Some b => b | None => Byte.x00 end.

(** [for (i = j = 0; i < 32; i += 2) { ...; sscanf(num, "%x", &hexnum);
       bytes[j++] = hexnum; }] with [k] iterations left; [hexnum] keeps its
    value when [sscanf] stores nothing.  A position past the end of [hash]
    reads as NUL, which matches the C code only at the terminator itself;
    beyond it the C code reads memory the model does not describe, so the
    model is exact for strings of at least 32 characters. *)
Fixpoint hex_loop (hash : cstring) (k : nat) (i : nat) (hexnum : Z) : list Byte.byte :=
  match k with
  | O => []
  | S k' =>
      let num := num_string (nth i hash Ascii.zero) (nth (S i) hash Ascii.zero) in
      let hexnum := match scan_x num with Some v => v | None => hexnum end in
      byte_of_Z hexnum :: hex_loop hash k' (S (S i)) hexnum
  end.

Definition MAX_HASH_SIZE : nat := 64.

(** [bytesFromHash(bytes, hash)]: the 64 bytes of [bytes] afterwards
    ([memset] to 0, then 16 bytes written); [hexnum0] is the indeterminate
    initial value of [hexnum]. *)
Definition bytesFromHash (hash : cstring) (hexnum0 : Z) : list Byte.byte :=
  hex_loop hash 16 0 hexnum0 ++ repeat Byte.x00 (MAX_HASH_SIZE - 16).

(* ------------------------------------------------------------------ *)
(** ** [main] *)

(** [atoi(s)] as glibc's [(int) strtol(s, NULL, 10)]. *)
Definition atoi (s : cstring) : Z :=
  let '(neg, s') := split_sign (skip_ws s) in
  let n := digits_value (fst (span is_digit s')) in
  let v := if neg then (if n >? 2 ^ 63 then - 2 ^ 63 else - n)
           else (if n >? 2 ^ 63 - 1 then 2 ^ 63 - 1 else n) in
  to_int32 v.

Inductive stream : Type := Stdout | Stderr.

(** What [main] does: the calls of [generateRainbowTable] (with their
    arguments), the text written to each stream, and the exit status. *)
Record main_result : Type := mkMain {
  gen_calls : list (Z * Z * Z * cstring);
  printed : list (stream * string);
  exit_code : Z }.

Definition nl : string := String (ascii_of_nat 10) EmptyString.
Definition tab : string := String (ascii_of_nat 9) EmptyString.

(** The text of [usage()]. *)
Definition usage_msg : string := (
  "snowflake: hash cracking utility." ++ nl ++
  "Usage: snowflake [mode] [options]" ++ nl ++
  "Modes:" ++ nl ++
  tab ++ " generate <chain num> <chain len> <table num> <hash function>" ++ nl ++
  tab ++ " search <rainbow table> <target hash>" ++ nl ++
  tab ++ " crack  <hash function> <target hash>" ++ nl ++ nl)%string.

(** [for (i = 0; i < tnum; i ++) generateRainbowTable(atoi(argv[2]), atoi(argv[3]), i, argv[5]);] *)
Fixpoint gen_calls_loop (cn cl : Z) (name : cstring) (k : nat) (i : Z)
    : list (Z * Z * Z * cstring) :=
  match k with
  | O => []
  | S k' => (cn, cl, i, name) :: gen_calls_loop cn cl name k' (i + 1)
  end.

(** The final report of [main] for the result [found] and [seed]. *)
Definition report (res : Z * Z) : list (stream * string) :=
  let '(found, seed) := res in
  if 0 <? found
  then [(Stdout, "[+] Seed found: " ++ string_of_list_ascii (fmt_u seed) ++ nl)%string]
  else if found =? 0 then [(Stdout, "[-] Seed not found :-(" ++ nl)%string]
  else [(Stderr, "[-] An error occured." ++ nl)%string].

(** [main(argc, argv)] with [argv] the argument strings; [search] and
    [crack] give the return value of [searchRainbowTable] and
    [searchHashOnline] on the arguments ([bytesFromHash] of [argv[3]]
    already applied) and the value of [seed] afterwards, for a run in
    which the call returns. *)
Definition main (argv : list cstring) (search : cstring -> cstring -> Z * Z)
    (crack : cstring -> cstring -> Z * Z) : main_result :=
  let argc := List.length argv in
  let arg k := nth k argv [] in
  let invalid_args :=
    mkMain [] [(Stderr, usage_msg); (Stderr, nl ++ "[-] Invalid number of arguments" ++ nl)%string] 1 in
  if (argc <? 2)%nat then mkMain [] [(Stderr, usage_msg)] 0
  else if streq (list_ascii_of_string "generate"%string) (arg 1%nat) then
    if negb (argc =? 6)%nat then invalid_args
    else
      let tnum := u32 (atoi (arg 4%nat)) in
      mkMain (gen_calls_loop (u32 (atoi (arg 2%nat))) (u32 (atoi (arg 3%nat))) (arg 5%nat)
                (Z.to_nat tnum) 0) [] 0
  else if streq (list_ascii_of_string "search"%string) (arg 1%nat) then
    if negb (argc =? 4)%nat then invalid_args
    else mkMain [] (report (search (arg 2%nat) (arg 3%nat))) 0
  else if streq (arg 1%nat) (list_ascii_of_string "crack"%string) then
    if negb (argc =? 4)%nat then invalid_args
    else mkMain [] (report (crack (arg 2%nat) (arg 3%nat))) 0
  else
    mkMain [] [(Stderr, usage_msg); (Stderr, nl ++ "[-] Invalid mode of operation." ++ nl)%string] 1.

(* ------------------------------------------------------------------ *)
(** ** [hexConvert] (rand.c) *)

(** [static char digits[] = "0123456789abcdefghijklmnopqrstuvwxyz";] *)
Definition hexconv_digits : list ascii :=
  list_ascii_of_string "0123456789abcdefghijklmnopqrstuvwxyz".

(** [do { *--ptr = digits[value % 16]; value /= 16; len ++; }
     while (ptr > buf && value);]  [k] is [ptr - buf]; [acc] the
    characters from [ptr] to the NUL at [buf[31]].  The case [k = 0] (a
    write before [buf]) is not reached for 32-bit [n1] and [n2], which need
    at most 16 of the 31 positions. *)
Fixpoint hex_do (k : nat) (value : Z) (acc : list ascii) (len : Z) : nat * list ascii * Z :=
  match k with
  | O => (O, acc, len)
  | S k' =>
      let acc := nth (Z.to_nat (value mod 16)) hexconv_digits "0"%char :: acc in
      let value := value / 16 in
      if (0 <? k')%nat && negb (value =? 0) then hex_do k' value acc (len + 1)
      else (k', acc, len + 1)
  end.

(** [hexConvert(buf, n1, n2)]: the string copied to [buf] and [len]. *)
Definition hexConvert (n1 n2 : Z) : cstring * Z :=
  let '(p, acc, len) := hex_do 31 n2 [] 0 in
  let '(_, acc, len) := hex_do p n1 acc len in
  (acc, len).

(* ------------------------------------------------------------------ *)
(** ** Properties and inputs used in the statements below *)

Definition word32 (x : Z) : Prop := 0 <= x < 2 ^ 32.

Definition cmwc_ok (st : cmwc_state) : Prop :=
  0 <= cmwc_c st < 2 ^ 32 /\
  (cmwc_seeded st = true -> List.length (cmwc_Q st) = 4096%nat /\ Forall word32 (cmwc_Q st)).

Definition chain_ok (H : hashFuncPtr) (hl cl : nat) (c : chain) : Prop :=
  endpoint c = chain_seed H hl (startpoint c) cl.

Definition lib_misses (l : hashlib) (name : cstring) : Prop :=
  forall hf, l = Lib hf -> Forall (fun e => hashName e <> name) hf.

Definition hex_digit (d : Z) : ascii :=
  ascii_of_nat (Z.to_nat (if d <? 10 then 48 + d else 87 + d)).

Definition hex_encode (bs : list Byte.byte) : cstring :=
  flat_map (fun b => [hex_digit (bval b / 16); hex_digit (bval b mod 16)]) bs.

Definition lit (s : string) : cstring := list_ascii_of_string s.

Definition is_lower_xdigit (c : ascii) : bool :=
  let n := nat_of_ascii c in
  (((48 <=? n) && (n <=? 57)) || ((97 <=? n) && (n <=? 102)))%nat.

Definition hex_no_leading_zero (ds : list ascii) : Prop :=
  ds = ["0"%char] \/ hd "0"%char ds <> "0"%char.

(** A hash-function entry used in concrete instances. *)
Definition demo_entry : hashFuncEntry := mkEntry (list_ascii_of_string "md5") (fun _ => []) 16.


(* ================================================================== *)
(** * Proofs *)

(* ------------------------------------------------------------------ *)
(** ** Small arithmetic facts *)

Lemma u32_range : forall x, 0 <= u32 x < 2 ^ 32.
Proof. intros x. unfold u32. apply Z.mod_pos_bound. lia. Qed.

Lemma u32_id : forall x, 0 <= x < 2 ^ 32 -> u32 x = x.
Proof. intros x Hx. unfold u32. apply Z.mod_small. exact Hx. Qed.

(* ------------------------------------------------------------------ *)
(** ** Binary search over the sorted table *)

(** C1: the binary search does not return the lowest matching position: on
    the sorted endpoints [0;0;1;1;1] with [r = 1] it lands on position 2,
    walks back one step too far and reports position 1 (endpoint 0); on the
    one-record table [7] it never inspects the last record and reports no
    match for [r = 7]. *)
Theorem searchTable_misses_first_match :
  let table := map (fun e => mkChain 0 e) [0; 0; 1; 1; 1] in
  searchTable table 5 1 = Done (Some 1) /\ endpoint (get table 1) = 0 /\
  endpoint (get table 2) = 1 /\
  searchTable [mkChain 0 7] 1 7 = Done None.
Proof. vm_compute. repeat split. Qed.

(* ------------------------------------------------------------------ *)
(** ** Enumerating equal endpoints during lookup *)

(** C9: the do-while loop of [searchHashInMemory] tests
    [table[index].endpoint == r] without bounding [index] by [chainNum].
    With the all-zero 8-byte hash and chains of length 1 starting at 5 and 6
    (both ending at 0, as [generateChain] computes them), a target digest
    that also reduces to 0 but is no hash value makes the lookup read
    [table[2]] of a two-record table. *)
Theorem searchHashInMemory_reads_past_table :
  let zero_hash : hashFuncPtr := fun _ => repeat Byte.x00 8 in
  let target := [Byte.x01; Byte.x00; Byte.x00; Byte.x00;
                 Byte.x01; Byte.x00; Byte.x00; Byte.x00] in
  chain_seed zero_hash 8 5 1 = 0 /\ chain_seed zero_hash 8 6 1 = 0 /\
  reduce target 8 0 = 0 /\
  searchHashInMemory [mkChain 5 0; mkChain 6 0] 2 1 zero_hash 8 target = Fault 2.
Proof. vm_compute. repeat split. Qed.

(* ------------------------------------------------------------------ *)
(** ** The exhaustive-search worker *)

Lemma worker_loop_no_exit :
  forall hashFunc hashLen hash seed fuel i,
  0 <= i <= MAX_SEED ->
  (forall j, 0 <= j <= MAX_SEED -> memeq hash (hashFunc j) hashLen = false) ->
  worker_loop fuel hashFunc hashLen hash MAX_SEED i false seed = OutOfFuel.
Proof.
  intros hashFunc hashLen hash seed fuel.
  induction fuel as [| fuel IH]; intros i Hi Hno; simpl.
  - reflexivity.
  - replace (i <=? MAX_SEED) with true by (symmetry; apply Z.leb_le; lia).
    rewrite (Hno i Hi).
    apply IH; [| exact Hno].
    pose proof (u32_range (i + 1)). unfold MAX_SEED. lia.
Qed.

(** C3: a worker whose range ends at [MAX_SEED] (the last worker, or the only
    one) never leaves its loop when no seed hashes to the target: the test
    [i <= opt->end] holds for every 32-bit [i] and [i++] wraps to 0, so the
    loop is still running after any number of iterations. *)
Theorem seedRecoveryWorker_runs_forever :
  forall hashFunc hashLen hash start seed,
  0 <= start <= MAX_SEED ->
  (forall j, 0 <= j <= MAX_SEED -> memeq hash (hashFunc j) hashLen = false) ->
  forall fuel, seedRecoveryWorker fuel hashFunc hashLen hash start MAX_SEED false seed = OutOfFuel.
Proof.
  intros hashFunc hashLen hash start seed Hs Hno fuel.
  unfold seedRecoveryWorker. apply worker_loop_no_exit; assumption.
Qed.

Lemma seedRecoveryWorker_runs_forever_witness :
  (0 <= 0 <= MAX_SEED) /\
  (forall j, 0 <= j <= MAX_SEED -> memeq [Byte.x01] ((fun _ => [Byte.x00]) j) 1 = false) /\
  seedRecoveryWorker 1000 (fun _ => [Byte.x00]) 1 [Byte.x01] 0 MAX_SEED false 0 = OutOfFuel.
Proof.
  assert (H1 : 0 <= 0 <= MAX_SEED) by (unfold MAX_SEED; lia).
  assert (H2 : forall j, 0 <= j <= MAX_SEED ->
               memeq [Byte.x01] ((fun _ => [Byte.x00]) j) 1 = false)
    by (intros; reflexivity).
  split; [exact H1 | split; [exact H2 |]].
  exact (seedRecoveryWorker_runs_forever (fun _ => [Byte.x00]) 1 [Byte.x01] 0 0 H1 H2 1000).
Defined.

(* ------------------------------------------------------------------ *)
(** ** Parsing table names *)

Lemma strchr_None_iff : forall s c, strchr s c = None <-> ~ In c s.
Proof.
  induction s as [| c' s IH]; intros c; simpl.
  - split; auto.
  - destruct (Ascii.eqb c' c) eqn:E.
    + apply Ascii.eqb_eq in E. subst. split; [discriminate | intros H; exfalso; auto].
    + apply Ascii.eqb_neq in E. transitivity (strchr s c = None).
      { destruct (strchr s c); simpl; split; congruence. }
      rewrite IH. split; [intros H [H' | H']; [congruence | auto] | auto].
Qed.

Lemma strchr_Some_In : forall s c k, strchr s c = Some k -> In c s.
Proof.
  induction s as [| c' s IH]; intros c k H; simpl in H.
  - discriminate.
  - destruct (Ascii.eqb c' c) eqn:E.
    + apply Ascii.eqb_eq in E. left. exact E.
    + right. destruct (strchr s c) as [k' |] eqn:Es; [| discriminate].
      exact (IH c k' Es).
Qed.

(** C4: [parseTablename] ignores the result of [sscanf].  On "bad.rt" it
    returns 1 (success), with the hash name "bad" and [chainNum] and
    [chainLen] left unwritten.  [searchRainbowTable] only checks for a
    negative result, so it goes on: it resolves "bad" and, when that
    succeeds and the file is mapped, searches the table with the
    indeterminate [chainNum] and [chainLen] of its own locals. *)
Theorem parseTablename_accepts_bad_rt : forall libs files name0 cn0 cl0 targetHash,
  parseTablename (list_ascii_of_string "bad.rt")
    = mkParse 1 (Some (list_ascii_of_string "bad")) None None /\
  searchRainbowTable libs files name0 cn0 cl0 (list_ascii_of_string "bad.rt") targetHash =
  match resolveHashFunc libs (list_ascii_of_string "bad") with
  | None => Done (-1, None)
  | Some e =>
      match files (list_ascii_of_string "bad.rt") with
      | None => Done (-1, None)
      | Some table =>
          found <- searchHashInMemory table (Z.to_nat cn0) (Z.to_nat cl0)
                     (hashFunc e) (Z.to_nat (hashLen e)) targetHash ;;
          Done (match found with Some s => (1, Some s) | None => (0, None) end)
      end
  end.
Proof.
  intros libs files name0 cn0 cl0 targetHash.
  assert (Hp : parseTablename (list_ascii_of_string "bad.rt")
               = mkParse 1 (Some (list_ascii_of_string "bad")) None None)
    by (vm_compute; reflexivity).
  split; [exact Hp |].
  unfold searchRainbowTable. rewrite Hp. cbn [ret out_hashFuncName out_chainNum out_chainLen].
  replace (1 <? 0) with false by reflexivity.
  destruct (resolveHashFunc libs (list_ascii_of_string "bad")) as [e |]; [| reflexivity].
  destruct (files (list_ascii_of_string "bad.rt")) as [t |]; [| reflexivity].
  destruct (searchHashInMemory _ _ _ _ _ _) as [[sd |] | i |]; reflexivity.
Qed.


(** C8 (as stated): the hash name "a b" has no '.', yet the name read back
    from its table name is "a" and neither number is read: [%s] stops at
    the blank and [%u] then fails on "b". *)
Lemma generateTableName_blank_name :
  ~ In "."%char (list_ascii_of_string "a b") /\
  parseTablename (generateTableName (list_ascii_of_string "a b") 1 2 3)
  = mkParse 1 (Some (list_ascii_of_string "a")) None None.
Proof.
  split.
  - simpl. intros [H | [H | [H | []]]]; discriminate.
  - vm_compute. reflexivity.
Qed.

(* ------------------------------------------------------------------ *)
(** ** The reduction *)

(** C6 (as stated): a trailing byte 0x80 is not added as 0x80: [reduce]
    reads it through a signed [char] and adds 0xFFFFFF80. *)
Lemma reduce_trailing_byte_0x80 :
  let d := [Byte.x00; Byte.x00; Byte.x00; Byte.x00; Byte.x80] in
  reduce d 5 0 = 4294967168 /\ reduce_spec bval d 5 0 = 128.
Proof. vm_compute. split; reflexivity. Qed.

Lemma bval_range : forall b, 0 <= bval b < 256.
Proof.
  intros b. unfold bval. pose proof (Byte.to_N_bounded b). lia.
Qed.

Lemma log2_u32 : forall x, 0 <= x < 2 ^ 32 -> Z.log2 x < 32.
Proof.
  intros x Hx. destruct (Z.eq_dec x 0) as [-> | Hne]; [simpl; lia |].
  apply Z.log2_lt_pow2; lia.
Qed.

Lemma lxor_range : forall a b, 0 <= a < 2 ^ 32 -> 0 <= b < 2 ^ 32 ->
  0 <= Z.lxor a b < 2 ^ 32.
Proof.
  intros a b Ha Hb.
  assert (Hn : 0 <= Z.lxor a b) by (apply Z.lxor_nonneg; lia).
  split; [exact Hn |].
  destruct (Z.eq_dec (Z.lxor a b) 0) as [E | E]; [rewrite E; lia |].
  apply Z.log2_lt_pow2; [lia |].
  pose proof (Z.log2_lxor a b (proj1 Ha) (proj1 Hb)).
  pose proof (log2_u32 a Ha). pose proof (log2_u32 b Hb). lia.
Qed.

Lemma load32_word : forall d k, load32 d (4 * k) = word_le d k.
Proof.
  intros d k. unfold load32, word_le. cbn [fold_right]. rewrite Nat.add_0_r.
  change (256 ^ Z.of_nat 0) with 1. change (256 ^ Z.of_nat 1) with 256.
  change (256 ^ Z.of_nat 2) with 65536. change (256 ^ Z.of_nat 3) with 16777216.
  lia.
Qed.

Lemma word_le_range : forall d k, 0 <= word_le d k < 2 ^ 32.
Proof.
  intros d k. rewrite <- load32_word. unfold load32.
  pose proof (bval_range (byte_at d (4 * k))).
  pose proof (bval_range (byte_at d (4 * k + 1))).
  pose proof (bval_range (byte_at d (4 * k + 2))).
  pose proof (bval_range (byte_at d (4 * k + 3))). lia.
Qed.

Lemma xor_loop_eq : forall d k i acc,
  reduce_xor_loop d k i acc = fold_left Z.lxor (map (word_le d) (seq i k)) acc.
Proof.
  intros d k. induction k as [| k IH]; intros i acc; [reflexivity |].
  cbn [reduce_xor_loop seq map fold_left]. rewrite load32_word. apply IH.
Qed.

Lemma fold_lxor_range : forall d l acc, 0 <= acc < 2 ^ 32 ->
  0 <= fold_left Z.lxor (map (word_le d) l) acc < 2 ^ 32.
Proof.
  intros d l. induction l as [| k l IH]; intros acc Hacc; simpl; [exact Hacc |].
  apply IH. apply lxor_range; [exact Hacc | apply word_le_range].
Qed.

Lemma fold_add_acc : forall l a, fold_left Z.add l a = a + fold_left Z.add l 0.
Proof.
  induction l as [| x l IH]; intros a; simpl; [lia |].
  rewrite (IH (a + x)), (IH x). lia.
Qed.

Lemma add_loop_eq : forall d len k i acc,
  reduce_add_loop d len k i (u32 acc)
  = u32 (acc + fold_left Z.add
                 (map (fun j => u32 (schar (byte_at d (len - 1 - j)))) (seq i k)) 0).
Proof.
  intros d len k. induction k as [| k IH]; intros i acc;
    cbn [reduce_add_loop seq map fold_left].
  - rewrite Z.add_0_r. reflexivity.
  - rewrite IH. rewrite (fold_add_acc _ (0 + _)). unfold u32.
    rewrite <- Z.add_assoc, Z.add_mod_idemp_l by lia. f_equal; lia.
Qed.

(** The loops of [reduce] compute the specification's formula, each trailing
    byte widened from a signed [char]. *)
Lemma reduce_eq_spec : forall d len round,
  reduce d len round = reduce_spec (fun b => u32 (schar b)) d len round.
Proof.
  intros d len round. unfold reduce, reduce_spec, xor_words, tail_bytes. cbv zeta.
  rewrite xor_loop_eq.
  rewrite <- (u32_id (fold_left Z.lxor (map (word_le d) (seq 0 (len / 4))) 0))
    at 1 by (apply fold_lxor_range; lia).
  rewrite add_loop_eq, map_map. reflexivity.
Qed.

Lemma contrib_signed_eq : forall b, contrib_signed b = u32 (schar b).
Proof.
  intros b. unfold contrib_signed, schar. pose proof (bval_range b).
  destruct (bval b <? 128); [rewrite u32_id by lia |]; reflexivity.
Qed.

(** C6 (amended): [reduce d hashLen round] is the XOR of the first
    [hashLen / 4] little-endian words, plus each of the last [hashLen mod 4]
    bytes (read from position [hashLen - 1 - i]) added as a sign-extended
    [char], modulo [2^32], XOR [round]; on [01 02 03 04 05] with round 0 it
    is 0x04030206. *)
Theorem reduce_signed_tail :
  (forall d hashLen round,
     reduce d hashLen round = reduce_spec contrib_signed d hashLen round) /\
  reduce [Byte.x01; Byte.x02; Byte.x03; Byte.x04; Byte.x05] 5 0 = 67305990.
Proof.
  split; [| vm_compute; reflexivity].
  intros d hashLen round. rewrite reduce_eq_spec. unfold reduce_spec.
  rewrite (map_ext contrib_signed (fun b => u32 (schar b))) by exact contrib_signed_eq.
  reflexivity.
Qed.

(** C10: a trailing byte [b] enters the sum as [b] when [b < 0x80] and as
    [(b - 256) mod 2^32] otherwise; when all trailing bytes are below 0x80,
    [reduce] adds their unsigned values. *)
Theorem reduce_tail_bytes_signed :
  forall d hashLen round,
  (reduce d hashLen round
   = reduce_spec (fun b => if bval b <? 128 then bval b else (bval b - 256) mod 2 ^ 32)
       d hashLen round) /\
  (Forall (fun b => bval b < 128) (tail_bytes d hashLen) ->
   reduce d hashLen round = reduce_spec bval d hashLen round).
Proof.
  intros d hashLen round. rewrite reduce_eq_spec. unfold reduce_spec. split.
  - rewrite (map_ext (fun b => u32 (schar b))
               (fun b => if bval b <? 128 then bval b else (bval b - 256) mod 2 ^ 32)).
    + reflexivity.
    + intros b. rewrite <- contrib_signed_eq. reflexivity.
  - intros Hall. do 4 f_equal. apply map_ext_in.
    intros b Hb. rewrite Forall_forall in Hall. specialize (Hall b Hb).
    unfold schar. replace (bval b <? 128) with true by (symmetry; apply Z.ltb_lt; lia).
    apply u32_id. pose proof (bval_range b). lia.
Qed.

Lemma reduce_tail_bytes_signed_witness :
  Forall (fun b => bval b < 128)
    (tail_bytes [Byte.x01; Byte.x02; Byte.x03; Byte.x04; Byte.x05] 5) /\
  reduce [Byte.x01; Byte.x02; Byte.x03; Byte.x04; Byte.x05] 5 0
  = reduce_spec bval [Byte.x01; Byte.x02; Byte.x03; Byte.x04; Byte.x05] 5 0.
Proof.
  assert (H : Forall (fun b => bval b < 128)
                (tail_bytes [Byte.x01; Byte.x02; Byte.x03; Byte.x04; Byte.x05] 5)).
  { vm_compute. repeat constructor; discriminate. }
  split; [exact H |].
  exact (proj2 (reduce_tail_bytes_signed [Byte.x01; Byte.x02; Byte.x03; Byte.x04; Byte.x05]
                  5 0) H).
Defined.

(* ------------------------------------------------------------------ *)
(** ** Regenerating a chain *)

Lemma memeq_spec : forall a b n, memeq a b n = true <-> firstn n a = firstn n b.
Proof.
  intros a b n. unfold memeq.
  destruct (list_eq_dec Byte.byte_eq_dec (firstn n a) (firstn n b)); split; congruence.
Qed.

Lemma memeq_false : forall a b n, memeq a b n = false <-> firstn n a <> firstn n b.
Proof.
  intros a b n. rewrite <- memeq_spec. destruct (memeq a b n); split; congruence.
Qed.

Section Regenerate.
Variable hashFunc : hashFuncPtr.
Variable hashLen : nat.
Variable targetHash : list Byte.byte.
Variable start : Z.

Let s (k : nat) : Z := chain_seed hashFunc hashLen start k.
Let hit (k : nat) : bool := memeq (hashFunc (s k)) targetHash hashLen.

Lemma regen_loop_none : forall k i,
  regen_loop hashFunc hashLen targetHash k i (s i) = None <->
  (forall m, (i <= m < i + k)%nat -> hit m = false).
Proof.
  induction k as [| k IH]; intros i; simpl.
  - split; [intros _ m Hm; lia | reflexivity].
  - fold (hit i). destruct (hit i) eqn:Hi.
    + split; [discriminate |]. intros H. rewrite (H i) in Hi by lia. discriminate.
    + change (reduce (hashFunc (s i)) hashLen (Z.of_nat i)) with (s (S i)).
      rewrite IH. split.
      * intros H m Hm. destruct (Nat.eq_dec m i) as [-> | Hne]; [exact Hi |].
        apply H. lia.
      * intros H m Hm. apply H. lia.
Qed.

Lemma regen_loop_some : forall k i r,
  regen_loop hashFunc hashLen targetHash k i (s i) = Some r <->
  (exists m, (i <= m < i + k)%nat /\ hit m = true /\ r = s m /\
             forall j, (i <= j < m)%nat -> hit j = false).
Proof.
  induction k as [| k IH]; intros i r; simpl.
  - split; [discriminate | intros [m [Hm _]]; lia].
  - fold (hit i). destruct (hit i) eqn:Hi.
    + split.
      * intros H. injection H as <-. exists i.
        split; [lia |]. split; [exact Hi |]. split; [reflexivity |].
        intros j Hj. lia.
      * intros [m [Hm [Hmh [-> Hbefore]]]].
        destruct (Nat.eq_dec m i) as [-> | Hne]; [reflexivity |].
        rewrite Hbefore in Hi by lia. discriminate.
    + change (reduce (hashFunc (s i)) hashLen (Z.of_nat i)) with (s (S i)).
      rewrite IH. split.
      * intros [m [Hm [Hmh [Hr Hbefore]]]]. exists m.
        split; [lia |]. split; [exact Hmh |]. split; [exact Hr |].
        intros j Hj. destruct (Nat.eq_dec j i) as [-> | Hne]; [exact Hi |].
        apply Hbefore. lia.
      * intros [m [Hm [Hmh [Hr Hbefore]]]].
        destruct (Nat.eq_dec m i) as [-> | Hne]; [congruence |].
        exists m. split; [lia |]. split; [exact Hmh |]. split; [exact Hr |].
        intros j Hj. apply Hbefore. lia.
Qed.
End Regenerate.

(** C7: [regenerateChain start L H hashLen target] succeeds with seed [r]
    exactly when some step [k < L] of the chain [s_0 = start],
    [s_{j+1} = reduce(H(s_j), hashLen, j)] has [H(s_k) = target] (on the
    first [hashLen] bytes), and then [r = s_k] for the first such [k]; it
    fails (returns 0, no seed) exactly when no step matches. *)
Theorem regenerateChain_spec :
  forall start chainLen hashFunc hashLen targetHash,
  (forall r,
     regenerateChain start chainLen hashFunc hashLen targetHash = Some r <->
     exists k, (k < chainLen)%nat /\
       firstn hashLen (hashFunc (chain_seed hashFunc hashLen start k))
       = firstn hashLen targetHash /\
       r = chain_seed hashFunc hashLen start k /\
       forall j, (j < k)%nat ->
         firstn hashLen (hashFunc (chain_seed hashFunc hashLen start j))
         <> firstn hashLen targetHash) /\
  (regenerateChain start chainLen hashFunc hashLen targetHash = None <->
   forall k, (k < chainLen)%nat ->
     firstn hashLen (hashFunc (chain_seed hashFunc hashLen start k))
     <> firstn hashLen targetHash).
Proof.
  intros start chainLen hashFunc hashLen targetHash. unfold regenerateChain. split.
  - intros r.
    pose proof (regen_loop_some hashFunc hashLen targetHash start chainLen 0 r) as Hs.
    cbn [chain_seed] in Hs. rewrite Hs. split.
    + intros [m [Hm [Hh [Hr Hb]]]]. exists m.
      split; [lia |]. split; [apply memeq_spec; exact Hh |]. split; [exact Hr |].
      intros j Hj. apply memeq_false. apply Hb. lia.
    + intros [m [Hm [Hh [Hr Hb]]]]. exists m.
      split; [lia |]. split; [apply memeq_spec; exact Hh |]. split; [exact Hr |].
      intros j Hj. apply memeq_false. apply Hb. lia.
  - pose proof (regen_loop_none hashFunc hashLen targetHash start chainLen 0) as Hs.
    cbn [chain_seed] in Hs. rewrite Hs. split.
    + intros H k Hk. apply memeq_false. apply H. lia.
    + intros H m Hm. apply memeq_false. apply H. lia.
Qed.

(* ------------------------------------------------------------------ *)
(** ** Ranges of the exhaustive-search workers *)

Lemma assign_ranges_In : forall threads range k i,
  0 <= range -> 0 <= i -> (i + Z.of_nat k) * range <= MAX_SEED ->
  forall rg, In rg (assign_ranges threads range k i (i * range)) <->
  exists j, i <= j < i + Z.of_nat k /\
    rg = (j * range, if j =? threads - 1 then MAX_SEED else (j + 1) * range).
Proof.
  intros threads range k. induction k as [| k IH]; intros i Hr Hi Hb rg.
  - simpl. split; [intros [] | intros [j [Hj _]]; lia].
  - cbn [assign_ranges].
    assert (Hnext : u32 (i * range + range) = (i + 1) * range).
    { rewrite u32_id; [ring |]. unfold MAX_SEED in Hb. nia. }
    rewrite Hnext. cbn [In]. rewrite (IH (i + 1)) by (try lia; nia). split.
    + intros [Hh | [j [Hj ->]]].
      * exists i. split; [lia |]. rewrite <- Hh. reflexivity.
      * exists j. split; [lia | reflexivity].
    + intros [j [Hj ->]]. destruct (Z.eq_dec j i) as [-> | Hne].
      * left. reflexivity.
      * right. exists j. split; [lia | reflexivity].
Qed.

Lemma worker_ranges_In : forall threads, 1 <= threads < 2 ^ 32 ->
  forall rg, In rg (worker_ranges threads) <->
  exists j, 0 <= j < threads /\
    rg = (j * (MAX_SEED / threads),
          if j =? threads - 1 then MAX_SEED else (j + 1) * (MAX_SEED / threads)).
Proof.
  intros threads Ht rg. unfold worker_ranges.
  change 0 with (0 * (MAX_SEED / threads)) at 2.
  rewrite assign_ranges_In.
  - rewrite Z2Nat.id by lia. split; intros [j [Hj ->]]; exists j; split; auto; lia.
  - apply Z.div_pos; unfold MAX_SEED; lia.
  - lia.
  - rewrite Z2Nat.id, Z.add_0_l by lia. apply Z.mul_div_le. lia.
Qed.

Lemma filter_length_In : forall {A} (f : A -> bool) l x,
  In x l -> f x = true -> (1 <= List.length (filter f l))%nat.
Proof.
  intros A f l. induction l as [| y l IH]; intros x Hin Hf; simpl in *; [contradiction |].
  destruct Hin as [-> | Hin]; [rewrite Hf; simpl; lia |].
  destruct (f y); simpl; [lia | exact (IH x Hin Hf)].
Qed.

(** Every 32-bit seed lies in the range of some worker. *)
Lemma worker_ranges_cover : forall threads, 1 <= threads < 2 ^ 32 ->
  forall s, 0 <= s <= MAX_SEED -> (1 <= owners threads s)%nat.
Proof.
  intros threads Ht s Hs. unfold owners.
  set (range := MAX_SEED / threads).
  assert (Hrange : 1 <= range).
  { unfold range. apply Z.div_le_lower_bound; unfold MAX_SEED in *; lia. }
  set (j := Z.min (s / range) (threads - 1)).
  assert (Hj : 0 <= j < threads).
  { unfold j. pose proof (Z.div_pos s range). lia. }
  apply (filter_length_In _ _
           (j * range, if j =? threads - 1 then MAX_SEED else (j + 1) * range)).
  - apply worker_ranges_In; [exact Ht |]. exists j. split; [exact Hj | reflexivity].
  - unfold in_range. simpl. apply andb_true_intro. split.
    + apply Z.leb_le. pose proof (Z.mul_div_le s range ltac:(lia)).
      assert (j <= s / range) by (unfold j; lia). nia.
    + apply Z.leb_le. destruct (Z.eqb_spec j (threads - 1)) as [E | E]; [lia |].
      assert (Hjq : j = s / range) by (unfold j; lia).
      pose proof (Z.mul_succ_div_gt s range ltac:(lia)). rewrite Hjq. nia.
Qed.

(** C2: the worker ranges cover [[0, 2^32 - 1]] but do not partition it:
    for two or more workers, worker [i] ends at [start + range], the very
    seed where worker [i + 1] starts, so the seed [range = MAX_SEED / T]
    (and each later boundary) belongs to two workers. *)
Theorem worker_ranges_overlap : forall threads, 2 <= threads < 2 ^ 32 ->
  (forall s, 0 <= s <= MAX_SEED -> (1 <= owners threads s)%nat) /\
  (2 <= owners threads (MAX_SEED / threads))%nat.
Proof.
  intros threads Ht. split; [apply worker_ranges_cover; lia |].
  set (range := MAX_SEED / threads).
  assert (Hrange : 1 <= range <= MAX_SEED).
  { unfold range. split; [apply Z.div_le_lower_bound; unfold MAX_SEED in *; lia |].
    apply Z.div_le_upper_bound; unfold MAX_SEED in *; lia. }
  unfold owners, worker_ranges. fold range.
  replace (Z.to_nat threads) with (S (S (Z.to_nat (threads - 2)))) by lia.
  cbn [assign_ranges]. rewrite Z.add_0_l, (u32_id range) by (unfold MAX_SEED in *; lia).
  cbn [filter]. unfold in_range at 1 2. cbn [fst snd].
  replace (0 <=? range) with true by (symmetry; apply Z.leb_le; lia).
  replace (range <=? range) with true by (symmetry; apply Z.leb_le; lia).
  replace (range <=? (if 0 =? threads - 1 then MAX_SEED else range)) with true
    by (symmetry; apply Z.leb_le; destruct (0 =? threads - 1); lia).
  assert (Hsecond : (range <=? (if 0 + 1 =? threads - 1 then MAX_SEED
                               else u32 (range + range))) = true).
  { apply Z.leb_le. destruct (0 + 1 =? threads - 1); [lia |].
    rewrite u32_id; [lia |]. unfold range.
    assert (2 * (MAX_SEED / threads) <= MAX_SEED).
    { transitivity (threads * (MAX_SEED / threads)); [nia |].
      apply Z.mul_div_le. lia. }
    unfold MAX_SEED in *. lia. }
  rewrite Hsecond. simpl. lia.
Qed.

Lemma worker_ranges_overlap_witness :
  (2 <= 4 < 2 ^ 32) /\ (2 <= owners 4 (MAX_SEED / 4))%nat.
Proof.
  assert (H : 2 <= 4 < 2 ^ 32) by lia.
  split; [exact H | exact (proj2 (worker_ranges_overlap 4 H))].
Defined.

(* ------------------------------------------------------------------ *)
(** ** Round trip of table names *)

Lemma digit_char_spec : forall k, 0 <= k < 10 ->
  is_digit (digit_char k) = true /\ digit_val (digit_char k) = k.
Proof.
  intros k Hk. unfold is_digit, digit_val, digit_char.
  rewrite nat_ascii_embedding by lia. split.
  - apply andb_true_intro. split; apply Nat.leb_le; lia.
  - rewrite Nat2Z.inj_add, Z2Nat.id by lia. lia.
Qed.

Lemma digits_value_snoc : forall ds d,
  digits_value (ds ++ [d]) = digits_value ds * 10 + digit_val d.
Proof. intros ds d. unfold digits_value. rewrite fold_left_app. reflexivity. Qed.

Lemma utoa_aux_spec : forall f n acc, (1 <= f)%nat -> 0 <= n < 10 ^ Z.of_nat f ->
  exists ds, utoa_aux f n acc = ds ++ acc /\ ds <> [] /\ forallb is_digit ds = true /\
             digits_value ds = n /\ (List.length ds <= f)%nat.
Proof.
  induction f as [| f IH]; intros n acc Hf Hn; [lia |].
  cbn [utoa_aux]. destruct (Z.ltb_spec n 10) as [Hlt | Hge].
  - exists [digit_char (n mod 10)]. rewrite Z.mod_small by lia.
    destruct (digit_char_spec n ltac:(lia)) as [Hd Hv].
    split; [reflexivity |]. split; [discriminate |].
    split; [cbn [forallb]; rewrite Hd; reflexivity |]. split; [| cbn [List.length]; lia].
    unfold digits_value. cbn [fold_left]. lia.
  - assert (Hpow : 10 ^ Z.of_nat (S f) = 10 * 10 ^ Z.of_nat f).
    { rewrite Nat2Z.inj_succ, Z.pow_succ_r by lia. reflexivity. }
    destruct f as [| f']; [simpl in Hn; lia |].
    destruct (IH (n / 10) (digit_char (n mod 10) :: acc)) as [ds [Heq [Hne [Hd [Hv Hl]]]]].
    + lia.
    + split; [apply Z.div_pos; lia |]. apply Z.div_lt_upper_bound; lia.
    + destruct (digit_char_spec (n mod 10) ltac:(pose proof (Z.mod_pos_bound n 10); lia))
        as [Hd1 Hv1].
      exists (ds ++ [digit_char (n mod 10)]). split; [rewrite Heq, <- app_assoc; reflexivity |].
      split; [destruct ds; [contradiction | discriminate] |].
      split; [rewrite forallb_app, Hd; cbn [forallb]; rewrite Hd1; reflexivity |].
      split; [rewrite digits_value_snoc, Hv, Hv1; pose proof (Z.div_mod n 10); lia |].
      rewrite length_app. cbn [List.length]. lia.
Qed.

Lemma fmt_u_spec : forall n, 0 <= n < 2 ^ 32 ->
  exists d ds, fmt_u n = d :: ds /\ forallb is_digit (d :: ds) = true /\
               digits_value (d :: ds) = n /\ (List.length (d :: ds) <= 10)%nat.
Proof.
  intros n Hn. destruct (utoa_aux_spec 10 n []) as [ds [Heq [Hne [Hd [Hv Hl]]]]].
  - lia.
  - simpl. lia.
  - destruct ds as [| d ds]; [contradiction |]. exists d, ds.
    unfold fmt_u. rewrite Heq, app_nil_r. auto.
Qed.

Lemma digit_not_space : forall c, is_digit c = true -> is_space c = false.
Proof. intros [[] [] [] [] [] [] [] []] H; try discriminate H; reflexivity. Qed.

Lemma digit_not_slash : forall c, is_digit c = true -> is_slash c = false.
Proof. intros [[] [] [] [] [] [] [] []] H; try discriminate H; reflexivity. Qed.

Lemma digit_not_dot : forall c, is_digit c = true -> Ascii.eqb c "."%char = false.
Proof. intros [[] [] [] [] [] [] [] []] H; try discriminate H; reflexivity. Qed.

Lemma split_sign_digit : forall d r, is_digit d = true -> split_sign (d :: r) = (false, d :: r).
Proof. intros [[] [] [] [] [] [] [] []] r H; try discriminate H; reflexivity. Qed.

Lemma skip_ws_nonspace : forall c l, is_space c = false -> skip_ws (c :: l) = c :: l.
Proof. intros c l H. simpl. rewrite H. reflexivity. Qed.

Lemma span_app : forall p A c B, forallb p A = true -> p c = false ->
  span p (A ++ c :: B) = (A, c :: B).
Proof.
  intros p A c B. induction A as [| a A IH]; intros HA Hc; simpl.
  - rewrite Hc. reflexivity.
  - simpl in HA. apply andb_true_iff in HA as [Ha HA]. rewrite Ha, IH by assumption.
    reflexivity.
Qed.

Lemma span_all : forall p l, forallb p l = true -> span p l = (l, []).
Proof.
  intros p l. induction l as [| a l IH]; intros H; simpl; [reflexivity |].
  simpl in H. apply andb_true_iff in H as [Ha H]. rewrite Ha, IH by assumption.
  reflexivity.
Qed.

Lemma skip_ws_fmt_u : forall n r, 0 <= n < 2 ^ 32 -> skip_ws (fmt_u n ++ r) = fmt_u n ++ r.
Proof.
  intros n r Hn. destruct (fmt_u_spec n Hn) as [d [ds [Heq [Hd _]]]]. rewrite Heq.
  simpl in Hd. apply andb_true_iff in Hd as [Hd _].
  apply skip_ws_nonspace, digit_not_space, Hd.
Qed.

Lemma scan_u_fmt_u : forall n r, 0 <= n < 2 ^ 32 ->
  scan_u (fmt_u n ++ "."%char :: r) = Some (n, "."%char :: r).
Proof.
  intros n r Hn. destruct (fmt_u_spec n Hn) as [d [ds [Heq [Hd [Hv _]]]]].
  rewrite Heq. unfold scan_u.
  assert (Hd0 : is_digit d = true) by (simpl in Hd; apply andb_true_iff in Hd; tauto).
  change ((d :: ds) ++ "."%char :: r) with (d :: ds ++ "."%char :: r).
  rewrite skip_ws_nonspace by (apply digit_not_space; exact Hd0).
  rewrite split_sign_digit by exact Hd0.
  change (d :: ds ++ "."%char :: r) with ((d :: ds) ++ "."%char :: r).
  rewrite span_app by (exact Hd || reflexivity).
  unfold scan_u_value. rewrite Hv.
  replace (n >? 2 ^ 64 - 1) with false by (symmetry; rewrite Z.gtb_ltb; apply Z.ltb_ge; lia).
  rewrite u32_id by lia. reflexivity.
Qed.

Lemma scan_s_word : forall w rest, w <> [] ->
  forallb (fun c => negb (is_space c)) w = true ->
  scan_s (w ++ " "%char :: rest) = Some (w, " "%char :: rest).
Proof.
  intros [| c w] rest Hne Hw; [contradiction |]. unfold scan_s.
  assert (Hc : is_space c = false).
  { simpl in Hw. apply andb_true_iff in Hw as [Hc _]. destruct (is_space c); auto. }
  change ((c :: w) ++ " "%char :: rest) with (c :: w ++ " "%char :: rest).
  rewrite skip_ws_nonspace by exact Hc.
  change (c :: w ++ " "%char :: rest) with ((c :: w) ++ " "%char :: rest).
  rewrite span_app by (exact Hw || reflexivity). reflexivity.
Qed.

Lemma sscanf_s_step : forall ds inp w rest, scan_s inp = Some (w, rest) ->
  sscanf (Conv_s :: ds) inp = AStr w :: sscanf ds rest.
Proof. intros ds inp w rest H. simpl. rewrite H. reflexivity. Qed.

Lemma sscanf_u_step : forall ds inp n rest, scan_u inp = Some (n, rest) ->
  sscanf (Conv_u :: ds) inp = AUint n :: sscanf ds rest.
Proof. intros ds inp n rest H. simpl. rewrite H. reflexivity. Qed.

Lemma sscanf_lit_step : forall c ds rest, is_space c = false ->
  sscanf (Chr c :: ds) (c :: rest) = sscanf ds rest.
Proof. intros c ds rest H. simpl. rewrite H, Ascii.eqb_refl. reflexivity. Qed.

Lemma sscanf_blank_step : forall ds inp, sscanf (Chr " "%char :: ds) inp = sscanf ds (skip_ws inp).
Proof. reflexivity. Qed.

Lemma skip_ws_blank : forall l, skip_ws (" "%char :: l) = skip_ws l.
Proof. reflexivity. Qed.

Lemma drop_while_none : forall p l, forallb (fun c => negb (p c)) l = true -> drop_while p l = l.
Proof.
  intros p [| c l] H; simpl; [reflexivity |].
  simpl in H. apply andb_true_iff in H as [Hc _]. destruct (p c); [discriminate | reflexivity].
Qed.

Lemma forallb_rev : forall (p : ascii -> bool) l, forallb p (rev l) = forallb p l.
Proof.
  intros p l. induction l as [| a l IH]; simpl; [reflexivity |].
  rewrite forallb_app, IH. simpl. rewrite andb_true_r, andb_comm. reflexivity.
Qed.

Lemma basename_plain : forall s, s <> [] ->
  forallb (fun c => negb (is_slash c)) s = true -> basename s = s.
Proof.
  intros [| c s] Hne Hs; [contradiction |].
  unfold basename.
  rewrite drop_while_none by (rewrite forallb_rev; exact Hs).
  rewrite rev_involutive.
  rewrite span_all by (rewrite forallb_rev; exact Hs).
  cbn [fst]. rewrite rev_involutive. reflexivity.
Qed.

Lemma strchr_app : forall A B c, ~ In c A -> strchr (A ++ c :: B) c = Some (List.length A).
Proof.
  induction A as [| a A IH]; intros B c HA; simpl.
  - rewrite Ascii.eqb_refl. reflexivity.
  - destruct (Ascii.eqb_spec a c) as [E | E]; [subst; exfalso; apply HA; left; reflexivity |].
    rewrite IH by (intros H; apply HA; right; exact H). reflexivity.
Qed.

Lemma set_char_app : forall A B x y, set_char (A ++ x :: B) (List.length A) y = A ++ y :: B.
Proof.
  induction A as [| a A IH]; intros B x y; simpl; [reflexivity |]. rewrite IH. reflexivity.
Qed.

Lemma name_ok_facts : forall name, forallb name_char_ok name = true ->
  forallb (fun c => negb (is_space c)) name = true /\
  forallb (fun c => negb (is_slash c)) name = true /\ ~ In "."%char name.
Proof.
  intros name H. rewrite forallb_forall in H.
  assert (Hc : forall c, In c name ->
            negb (Ascii.eqb c "."%char) = true /\ negb (is_slash c) = true /\
            negb (is_space c) = true).
  { intros c Hin. specialize (H c Hin). unfold name_char_ok in H.
    repeat rewrite andb_true_iff in H. tauto. }
  split; [| split].
  - apply forallb_forall. intros c Hin. apply Hc, Hin.
  - apply forallb_forall. intros c Hin. apply Hc, Hin.
  - intros Hin. destruct (Hc _ Hin) as [Hd _]. rewrite Ascii.eqb_refl in Hd. discriminate.
Qed.

Lemma fmt_u_facts : forall n, 0 <= n < 2 ^ 32 ->
  forallb (fun c => negb (is_slash c)) (fmt_u n) = true /\ (List.length (fmt_u n) <= 10)%nat.
Proof.
  intros n Hn. destruct (fmt_u_spec n Hn) as [d [ds [Heq [Hd [_ Hl]]]]]. rewrite Heq.
  split; [| exact Hl].
  apply forallb_forall. intros c Hin. rewrite forallb_forall in Hd.
  rewrite (digit_not_slash c (Hd c Hin)). reflexivity.
Qed.

Lemma generateTableName_eq : forall name chainNum chainLen index,
  (List.length name <= 63)%nat ->
  0 <= chainNum < 2 ^ 32 -> 0 <= chainLen < 2 ^ 32 -> 0 <= index < 2 ^ 32 ->
  generateTableName name chainNum chainLen index =
  name ++ "."%char :: fmt_u chainNum ++ "."%char :: fmt_u chainLen ++ "."%char ::
  fmt_u index ++ ["."%char; "r"%char; "t"%char].
Proof.
  intros name cn cl idx Hl Hcn Hcl Hidx. unfold generateTableName, snprintf.
  change (parse_fmt (list_ascii_of_string "%s.%u.%u.%u.rt")) with tablename_fmt.
  unfold tablename_fmt. cbn [sprintf]. apply firstn_all2.
  destruct (fmt_u_facts cn Hcn) as [_ L1]. destruct (fmt_u_facts cl Hcl) as [_ L2].
  destruct (fmt_u_facts idx Hidx) as [_ L3].
  repeat (rewrite length_app; cbn [List.length]). lia.
Qed.

(** C8 (amended): for a hash name that is non-empty, at most 63 bytes long
    and free of '.', '/', white space and NUL, and 32-bit values of
    [chainNum], [chainLen] and [index], [parseTablename] reads back from
    [generateTableName] the hash name, [chainNum] and [chainLen], and
    returns 1. *)
Theorem generateTableName_roundtrip :
  forall name chainNum chainLen index,
  valid_hash_name name ->
  0 <= chainNum < 2 ^ 32 -> 0 <= chainLen < 2 ^ 32 -> 0 <= index < 2 ^ 32 ->
  parseTablename (generateTableName name chainNum chainLen index) =
  mkParse 1 (Some name) (Some chainNum) (Some chainLen).
Proof.
  intros name cn cl idx [Hne [Hl Hok]] Hcn Hcl Hidx.
  destruct (name_ok_facts name Hok) as [Hsp [Hsl Hdot]].
  rewrite generateTableName_eq by assumption.
  unfold parseTablename.
  rewrite basename_plain.
  2: { destruct name; [contradiction | discriminate]. }
  2: { destruct (fmt_u_facts cn Hcn) as [F1 _]. destruct (fmt_u_facts cl Hcl) as [F2 _].
       destruct (fmt_u_facts idx Hidx) as [F3 _].
       repeat (rewrite forallb_app; cbn [forallb]).
       rewrite Hsl, F1, F2, F3. reflexivity. }
  rewrite strchr_app by exact Hdot.
  rewrite set_char_app.
  change (parse_fmt (list_ascii_of_string "%s %u.%u.%u.rt")) with tablename_scan_fmt.
  unfold tablename_scan_fmt.
  rewrite sscanf_s_step with (w := name) (rest := " "%char :: _)
    by (apply scan_s_word; assumption).
  rewrite sscanf_blank_step, skip_ws_blank, skip_ws_fmt_u by exact Hcn.
  rewrite sscanf_u_step with (n := cn) (rest := "."%char :: _)
    by (apply scan_u_fmt_u; exact Hcn).
  rewrite sscanf_lit_step by reflexivity.
  rewrite sscanf_u_step with (n := cl) (rest := "."%char :: _)
    by (apply scan_u_fmt_u; exact Hcl).
  rewrite sscanf_lit_step by reflexivity.
  rewrite sscanf_u_step with (n := idx) (rest := "."%char :: _)
    by (apply scan_u_fmt_u; exact Hidx).
  rewrite !sscanf_lit_step by reflexivity.
  reflexivity.
Qed.

Lemma generateTableName_roundtrip_witness :
  parseTablename (generateTableName (list_ascii_of_string "wikihash") 1000 100 0) =
  mkParse 1 (Some (list_ascii_of_string "wikihash")) (Some 1000) (Some 100).
Proof.
  apply generateTableName_roundtrip.
  - split; [discriminate | split; [cbn; lia | reflexivity]].
  - lia.
  - lia.
  - lia.
Defined.

(* ------------------------------------------------------------------ *)
(** ** [quickSortTable] *)

Lemma to_int32_small : forall x, 0 <= x < 2 ^ 31 -> to_int32 x = x.
Proof.
  intros x Hx. unfold to_int32. rewrite (u32_id x) by lia.
  replace (x <? 2 ^ 31) with true by (symmetry; apply Z.ltb_lt; lia). reflexivity.
Qed.

Lemma u32_to_int32 : forall x, 0 <= x < 2 ^ 32 -> u32 (to_int32 x) = x.
Proof.
  intros x Hx. unfold to_int32. rewrite (u32_id x) by lia.
  destruct (Z.ltb_spec x (2 ^ 31)); [apply u32_id; lia |].
  unfold u32. replace (x - 2 ^ 32) with (x + (-1) * 2 ^ 32) by ring.
  rewrite Z.mod_add by lia. apply Z.mod_small. lia.
Qed.

Lemma Forall_perm : forall (P : chain -> Prop) l l', Permutation l l' -> Forall P l -> Forall P l'.
Proof.
  intros P l l' Hp H. rewrite Forall_forall in *. intros x Hx.
  apply H. apply (Permutation_in x (Permutation_sym Hp) Hx).
Qed.

Lemma get_mid : forall X a Y i, i = Z.of_nat (List.length X) -> get (X ++ a :: Y) i = a.
Proof. intros X a Y i ->. unfold get. rewrite Nat2Z.id. apply nth_middle. Qed.

Lemma upd_mid : forall X a Y c, upd (X ++ a :: Y) (List.length X) c = X ++ c :: Y.
Proof. induction X as [| x X IH]; intros a Y c; simpl; [reflexivity |]. rewrite IH. reflexivity. Qed.

Lemma put_mid : forall X a Y i c, i = Z.of_nat (List.length X) -> put (X ++ a :: Y) i c = X ++ c :: Y.
Proof. intros X a Y i c ->. unfold put. rewrite Nat2Z.id. apply upd_mid. Qed.

Lemma upd_nth_same : forall t n d, upd t n (nth n t d) = t.
Proof. induction t as [| x t IH]; intros [| n] d; simpl; try rewrite IH; reflexivity. Qed.

Lemma swap_self : forall t i, swap t i i = t.
Proof. intros t i. unfold swap, put, get. rewrite !upd_nth_same. reflexivity. Qed.

Lemma swap_lt : forall X a Y b Z0 i j,
  i = Z.of_nat (List.length X) -> j = Z.of_nat (List.length X + 1 + List.length Y) ->
  swap (X ++ a :: Y ++ b :: Z0) i j = X ++ b :: Y ++ a :: Z0.
Proof.
  intros X a Y b Z0 i j Hi Hj. unfold swap.
  assert (E : forall c, X ++ c :: Y ++ b :: Z0 = (X ++ c :: Y) ++ b :: Z0)
    by (intros c; rewrite <- app_assoc; reflexivity).
  assert (Hl : forall c, j = Z.of_nat (List.length (X ++ c :: Y)))
    by (intros c; rewrite length_app; simpl; lia).
  rewrite (get_mid X a _ i Hi), E, (get_mid _ b Z0 j (Hl a)), <- E.
  rewrite (put_mid X a _ i b Hi), E, (put_mid _ b Z0 j a (Hl b)), <- app_assoc.
  reflexivity.
Qed.

Lemma swap_gt : forall X a Y b Z0 i j,
  i = Z.of_nat (List.length X) -> j = Z.of_nat (List.length X + 1 + List.length Y) ->
  swap (X ++ a :: Y ++ b :: Z0) j i = X ++ b :: Y ++ a :: Z0.
Proof.
  intros X a Y b Z0 i j Hi Hj. unfold swap.
  assert (E : forall c, X ++ c :: Y ++ b :: Z0 = (X ++ c :: Y) ++ b :: Z0)
    by (intros c; rewrite <- app_assoc; reflexivity).
  assert (Hl : forall c, j = Z.of_nat (List.length (X ++ c :: Y)))
    by (intros c; rewrite length_app; simpl; lia).
  rewrite (get_mid X a _ i Hi), E, (get_mid _ b Z0 j (Hl a)).
  rewrite (put_mid _ b Z0 j a (Hl a)), <- app_assoc.
  cbn [app].
  rewrite (put_mid X a _ i b Hi). reflexivity.
Qed.

Ltac list_eq :=
  repeat (rewrite <- app_assoc || rewrite <- app_comm_cons); reflexivity.

Lemma last_cases : forall (l : list chain), l = [] \/ exists W w, l = W ++ [w].
Proof.
  intros [| x l]; [left; reflexivity | right].
  destruct (exists_last (l := x :: l) ltac:(discriminate)) as [W [w E]]. eauto.
Qed.

Lemma partition_spec : forall n A p L U R C piv pv l r,
  List.length U = n -> pv = u32 piv ->
  l = Z.of_nat (List.length A + 1 + List.length L) -> r = l + Z.of_nat n ->
  Forall (fun c => endpoint c <= pv) L -> Forall (fun c => pv < endpoint c) R ->
  exists L' R',
    partition_loop n (A ++ p :: L ++ U ++ R ++ C) piv l r =
      (A ++ p :: L' ++ R' ++ C, Z.of_nat (List.length A + 1 + List.length L'),
       Z.of_nat (List.length A + 1 + List.length L')) /\
    Forall (fun c => endpoint c <= pv) L' /\ Forall (fun c => pv < endpoint c) R' /\
    Permutation (L' ++ R') (L ++ U ++ R).
Proof.
  induction n as [| n IH]; intros A p L U R C piv pv l r HU Hpv Hl Hr HL HR.
  - destruct U; [| discriminate]. exists L, R. cbn [partition_loop].
    replace r with l by lia. rewrite Hl.
    split; [reflexivity | split; [exact HL | split; [exact HR | reflexivity]]].
  - destruct U as [| u U']; [discriminate |]. injection HU as HU.
    cbn [partition_loop].
    replace (l <? r) with true by (symmetry; apply Z.ltb_lt; lia).
    assert (Eu : A ++ p :: L ++ (u :: U') ++ R ++ C = (A ++ p :: L) ++ u :: U' ++ R ++ C)
      by (rewrite <- app_assoc; reflexivity).
    rewrite Eu, get_mid by (rewrite length_app; simpl; lia). rewrite <- Eu, <- Hpv.
    destruct (Z.leb_spec (endpoint u) pv) as [Hle | Hgt].
    + assert (H1 : List.length U' = n) by exact HU.
      assert (H2 : l + 1 = Z.of_nat (List.length A + 1 + List.length (L ++ [u])))
        by (rewrite length_app; simpl; lia).
      assert (H3 : r = l + 1 + Z.of_nat n) by lia.
      assert (H4 : Forall (fun c => endpoint c <= pv) (L ++ [u])) by (apply Forall_app; auto).
      destruct (IH A p (L ++ [u]) U' R C piv pv (l + 1) r H1 Hpv H2 H3 H4 HR)
        as [L' [R' [Hp [HL' [HR' HP]]]]].
      exists L', R'. split; [| split; [exact HL' | split; [exact HR' |]]].
      * replace (A ++ p :: L ++ (u :: U') ++ R ++ C)
          with (A ++ p :: (L ++ [u]) ++ U' ++ R ++ C) by list_eq.
        exact Hp.
      * rewrite HP, <- !app_assoc. reflexivity.
    + destruct (last_cases U') as [-> | [W [w ->]]].
      * simpl in HU. subst n.
        replace (r - 1) with l by lia. rewrite swap_self.
        exists L, (u :: R). cbn [partition_loop]. rewrite Hl.
        split; [reflexivity | split; [exact HL | split; [constructor; [lia | exact HR] |]]].
        reflexivity.
      * rewrite length_app in HU. simpl in HU.
        assert (Es : A ++ p :: L ++ (u :: W ++ [w]) ++ R ++ C
                     = (A ++ p :: L) ++ u :: W ++ w :: R ++ C)
          by list_eq.
        rewrite Es, swap_lt by (rewrite ?length_app; simpl; lia).
        assert (H1 : List.length (w :: W) = n) by (simpl; lia).
        assert (H3 : r - 1 = l + Z.of_nat n) by lia.
        assert (H4 : Forall (fun c => pv < endpoint c) (u :: R)) by (constructor; [lia | exact HR]).
        destruct (IH A p L (w :: W) (u :: R) C piv pv l (r - 1) H1 Hpv Hl H3 HL H4)
          as [L' [R' [Hp [HL' [HR' HP]]]]].
        exists L', R'. split; [| split; [exact HL' | split; [exact HR' |]]].
        -- replace ((A ++ p :: L) ++ w :: W ++ u :: R ++ C)
             with (A ++ p :: L ++ (w :: W) ++ (u :: R) ++ C) by list_eq.
           exact Hp.
        -- rewrite HP. apply Permutation_app_head.
           simpl. rewrite <- app_assoc. simpl.
           etransitivity; [symmetry; apply (Permutation_middle (w :: W) R u) |].
           apply perm_skip. simpl. apply Permutation_middle.
Qed.

Lemma sorted_short : forall (l : list chain), (List.length l <= 1)%nat ->
  StronglySorted (fun a b => endpoint a <= endpoint b) l.
Proof.
  intros [| x [| y l]] H; simpl in H; try lia; repeat constructor.
Qed.

Lemma sorted_join : forall (Ls Rs : list chain) p,
  StronglySorted (fun a b => endpoint a <= endpoint b) Ls ->
  StronglySorted (fun a b => endpoint a <= endpoint b) Rs ->
  Forall (fun c => endpoint c <= endpoint p) Ls ->
  Forall (fun c => endpoint p < endpoint c) Rs ->
  StronglySorted (fun a b => endpoint a <= endpoint b) (Ls ++ p :: Rs).
Proof.
  induction Ls as [| x Ls IH]; intros Rs p HL HR FL FR; simpl.
  - constructor; [exact HR |]. eapply Forall_impl; [| exact FR]. simpl; intros; lia.
  - inversion HL as [| ? ? HL' Hx]; subst. inversion FL as [| ? ? Hxp FL']; subst.
    constructor; [apply IH; assumption |].
    apply Forall_app. split; [exact Hx |].
    constructor; [exact Hxp |]. eapply Forall_impl; [| exact FR]. simpl; intros; lia.
Qed.

Lemma qsort_spec : forall f A Sg C beg end_,
  beg = Z.of_nat (List.length A) -> end_ = Z.of_nat (List.length A + List.length Sg) ->
  end_ < 2 ^ 31 -> (List.length Sg <= S f)%nat ->
  Forall (fun c => 0 <= endpoint c < 2 ^ 32) Sg ->
  exists S', qsort f (A ++ Sg ++ C) beg end_ = A ++ S' ++ C /\ Permutation S' Sg /\
             StronglySorted (fun a b => endpoint a <= endpoint b) S'.
Proof.
  induction f as [| f IH]; intros A Sg C beg end_ Hb He Hlt Hf Hr.
  - exists Sg. split; [reflexivity | split; [reflexivity | apply sorted_short; lia]].
  - cbn [qsort]. rewrite (u32_id (beg + 1)) by lia.
    destruct (Z.ltb_spec (beg + 1) end_) as [Hgt | Hle];
      [| exists Sg; split; [reflexivity | split; [reflexivity | apply sorted_short; lia]]].
    destruct Sg as [| p U]; [simpl in He; lia |].
    inversion Hr as [| ? ? Hp HU]; subst.
    change (A ++ (p :: U) ++ C) with (A ++ p :: [] ++ U ++ [] ++ C).
    rewrite get_mid by reflexivity.
    rewrite (to_int32_small (_ + 1)) by lia.
    rewrite (to_int32_small (Z.of_nat _)) by lia.
    set (piv := to_int32 (endpoint p)).
    replace (Z.to_nat (Z.of_nat (List.length A + List.length (p :: U)) -
                       (Z.of_nat (List.length A) + 1)))
      with (List.length U) by (simpl; lia).
    assert (Hpv : endpoint p = u32 piv) by (unfold piv; rewrite u32_to_int32; lia).
    destruct (partition_spec (List.length U) A p [] U [] C piv (endpoint p)
                (Z.of_nat (List.length A) + 1)
                (Z.of_nat (List.length A + List.length (p :: U))))
      as [L' [R' [HP [HL' [HR' HPerm]]]]];
      [reflexivity | exact Hpv | simpl; lia | simpl; lia | constructor | constructor |].
    rewrite HP. cbv beta iota zeta.
    assert (HlenU : (List.length L' + List.length R' = List.length U)%nat).
    { apply Permutation_length in HPerm. rewrite length_app, !app_nil_r in HPerm. exact HPerm. }
    (* the pivot goes to position [l - 1] *)
    assert (Hsw : exists Lsw,
              swap (A ++ p :: L' ++ R' ++ C)
                   (Z.of_nat (List.length A + 1 + List.length L') - 1)
                   (Z.of_nat (List.length A))
              = A ++ Lsw ++ p :: R' ++ C /\ Permutation Lsw L' /\
              List.length Lsw = List.length L').
    { destruct (last_cases L') as [-> | [L0 [x ->]]].
      - exists []. replace (Z.of_nat (List.length A + 1 + List.length (@nil chain)) - 1)
          with (Z.of_nat (List.length A)) by (simpl; lia).
        rewrite swap_self. auto.
      - exists (x :: L0).
        replace (A ++ p :: (L0 ++ [x]) ++ R' ++ C) with (A ++ p :: L0 ++ x :: R' ++ C)
          by list_eq.
        rewrite swap_gt by (rewrite ?length_app; simpl; lia).
        split; [reflexivity |]. split; [| rewrite length_app; simpl; lia].
        rewrite Permutation_app_comm. reflexivity. }
    destruct Hsw as [Lsw [Hs [HpL HlL]]]. rewrite Hs.
    assert (HlenS : List.length (p :: U) = S (List.length U)) by reflexivity.
    assert (Hrange : Forall (fun c => 0 <= endpoint c < 2 ^ 32) (L' ++ R')).
    { apply (Forall_perm _ U); [rewrite HPerm, !app_nil_r; reflexivity | exact HU]. }
    apply Forall_app in Hrange as [HrL HrR].
    destruct (IH A Lsw (p :: R' ++ C) (Z.of_nat (List.length A))
                (u32 (Z.of_nat (List.length A + 1 + List.length L') - 1)))
      as [Ls [Hq1 [Hp1 Hs1]]];
      [reflexivity | rewrite u32_id by lia; lia | rewrite u32_id by lia; lia
      | simpl in Hf; lia | apply (Forall_perm _ L'); [symmetry; exact HpL | exact HrL] |].
    rewrite Hq1.
    replace (A ++ Ls ++ p :: R' ++ C) with ((A ++ Ls ++ [p]) ++ R' ++ C) by list_eq.
    assert (HlLs : List.length Ls = List.length L') by
      (rewrite (Permutation_length Hp1); exact HlL).
    destruct (IH (A ++ Ls ++ [p]) R' C
                (u32 (Z.of_nat (List.length A + 1 + List.length L')))
                (Z.of_nat (List.length A + List.length (p :: U))))
      as [Rs [Hq2 [Hp2 Hs2]]];
      [rewrite u32_id by lia; rewrite !length_app; simpl; lia
      | rewrite !length_app; simpl; lia | lia | simpl in Hf; lia | exact HrR |].
    rewrite Hq2. exists (Ls ++ p :: Rs). split; [list_eq |]. split.
    + rewrite Hp1, Hp2, HpL. rewrite <- Permutation_middle. apply perm_skip.
      rewrite HPerm, !app_nil_r. reflexivity.
    + apply sorted_join; [exact Hs1 | exact Hs2 | |].
      * apply (Forall_perm _ L'); [symmetry; rewrite Hp1; exact HpL | exact HL'].
      * apply (Forall_perm _ R'); [symmetry; exact Hp2 | exact HR'].
Qed.

Lemma sorted_adjacent : forall (R : chain -> chain -> Prop) l i d,
  StronglySorted R l -> (S i < List.length l)%nat -> R (nth i l d) (nth (S i) l d).
Proof.
  intros R l. induction l as [| x l IH]; intros i d Hs Hi; [simpl in Hi; lia |].
  inversion Hs as [| ? ? Hs' Hx]; subst.
  destruct i as [| i].
  - destruct l as [| y l]; [simpl in Hi; lia |]. simpl. inversion Hx; assumption.
  - simpl in Hi. change (R (nth i l d) (nth (S i) l d)). apply IH; [exact Hs' | lia].
Qed.

Lemma qsort_short : forall f t beg end_, (u32 (beg + 1) <? end_) = false -> qsort f t beg end_ = t.
Proof. intros [| f] t beg end_ H; cbn [qsort]; [reflexivity | rewrite H; reflexivity]. Qed.

(** C5 (amended): for a table of [chainNum < 2^31] chains,
    [quickSortTable(table, 0, chainNum)] returns a permutation of the table
    whose endpoints are in non-decreasing order. *)
Theorem quickSortTable_sorts : forall table,
  Z.of_nat (List.length table) < 2 ^ 31 ->
  Forall (fun c => 0 <= endpoint c < 2 ^ 32) table ->
  Permutation (quickSortTable table 0 (Z.of_nat (List.length table))) table /\
  sorted_by_endpoint (quickSortTable table 0 (Z.of_nat (List.length table)))
                     (Z.of_nat (List.length table)).
Proof.
  intros table Hlt Hr. unfold quickSortTable. rewrite Z.sub_0_r, Nat2Z.id.
  destruct (qsort_spec (List.length table) [] table [] 0 (Z.of_nat (List.length table)))
    as [S' [Hq [Hp Hs]]]; [reflexivity | reflexivity | exact Hlt | lia | exact Hr |].
  rewrite !app_nil_r in Hq. simpl in Hq. rewrite Hq. split; [exact Hp |].
  intros i Hi Hn. unfold get.
  replace (Z.to_nat (i + 1)) with (S (Z.to_nat i)) by lia.
  apply sorted_adjacent with (R := fun a b => endpoint a <= endpoint b); [exact Hs |].
  rewrite (Permutation_length Hp). lia.
Qed.

Lemma quickSortTable_sorts_witness :
  let t := [mkChain 0 3; mkChain 1 1; mkChain 2 2] in
  (Z.of_nat (List.length t) < 2 ^ 31 /\ Forall (fun c => 0 <= endpoint c < 2 ^ 32) t) /\
  Permutation (quickSortTable t 0 3) t /\ sorted_by_endpoint (quickSortTable t 0 3) 3.
Proof.
  intros t.
  assert (H1 : Z.of_nat (List.length t) < 2 ^ 31) by (simpl; lia).
  assert (H2 : Forall (fun c => 0 <= endpoint c < 2 ^ 32) t)
    by (repeat constructor; simpl; lia).
  split; [split; [exact H1 | exact H2] |].
  exact (quickSortTable_sorts t H1 H2).
Defined.

(** C5 (as stated): with [chainNum = 2^31] the [int] copy [r] of [end] is
    negative, the partition loop does not run and [quickSortTable] returns
    every table unchanged, so a table of [2^31] chains whose first endpoint
    exceeds the second stays unsorted. *)
Lemma quickSortTable_int_overflow :
  (forall t, quickSortTable t 0 (2 ^ 31) = t) /\
  Z.of_nat (List.length (mkChain 0 1 :: mkChain 0 0 ::
                         repeat (mkChain 0 0) (Z.to_nat (2 ^ 31 - 2)))) = 2 ^ 31 /\
  ~ sorted_by_endpoint (mkChain 0 1 :: mkChain 0 0 ::
                        repeat (mkChain 0 0) (Z.to_nat (2 ^ 31 - 2))) (2 ^ 31).
Proof.
  split; [| split].
  - intros t. unfold quickSortTable.
    assert (Ef : Z.to_nat (2 ^ 31 - 0) = S (Z.to_nat (2 ^ 31 - 1)))
      by (rewrite <- Z2Nat.inj_succ by lia; f_equal; lia).
    rewrite Ef. generalize (Z.to_nat (2 ^ 31 - 1)) as k. intros k.
    cbn [qsort].
    assert (E1 : (u32 (0 + 1) <? 2 ^ 31) = true) by reflexivity.
    assert (E2 : to_int32 (u32 (0 + 1)) = 1) by reflexivity.
    assert (E3 : to_int32 (2 ^ 31) = - 2 ^ 31) by reflexivity.
    assert (E4 : Z.to_nat (- 2 ^ 31 - 1) = O) by reflexivity.
    rewrite E1, E2, E3, E4. cbn [partition_loop]. cbv beta iota zeta.
    assert (E5 : 1 - 1 = 0) by reflexivity. rewrite E5, swap_self.
    rewrite (qsort_short k t 0 (u32 0)) by reflexivity.
    apply qsort_short. reflexivity.
  - cbn [List.length]. rewrite repeat_length, !Nat2Z.inj_succ, Z2Nat.id by lia. lia.
  - intros H. specialize (H 0 ltac:(lia) ltac:(lia)).
    assert (G0 : get (mkChain 0 1 :: mkChain 0 0 ::
                      repeat (mkChain 0 0) (Z.to_nat (2 ^ 31 - 2))) 0 = mkChain 0 1)
      by reflexivity.
    assert (G1 : get (mkChain 0 1 :: mkChain 0 0 ::
                      repeat (mkChain 0 0) (Z.to_nat (2 ^ 31 - 2))) (0 + 1) = mkChain 0 0)
      by reflexivity.
    rewrite G0, G1 in H. simpl in H. lia.
Qed.

(* ------------------------------------------------------------------ *)
(** ** [reduce], [generateChain], [searchTable], [searchHashInMemory] *)

Lemma nth_firstn_lt : forall {A} (l : list A) n k d, (k < n)%nat ->
  nth k (firstn n l) d = nth k l d.
Proof.
  intros A l. induction l as [|x l IH]; intros n k d H.
  - rewrite firstn_nil. reflexivity.
  - destruct n as [|n]; [lia |]. destruct k as [|k]; [reflexivity |].
    simpl. apply IH. lia.
Qed.

Lemma load32_firstn : forall h n k, (k + 4 <= n)%nat ->
  load32 (firstn n h) k = load32 h k.
Proof.
  intros h n k H. unfold load32, byte_at. rewrite !nth_firstn_lt by lia. reflexivity.
Qed.

Lemma xor_loop_firstn : forall h n k i r, (4 * (i + k) <= n)%nat ->
  reduce_xor_loop (firstn n h) k i r = reduce_xor_loop h k i r.
Proof.
  intros h n k. induction k as [|k IH]; intros i r H; [reflexivity |].
  simpl. rewrite load32_firstn by lia. apply IH. lia.
Qed.

Lemma add_loop_firstn : forall h n k i r, (i + k <= n)%nat ->
  reduce_add_loop (firstn n h) n k i r = reduce_add_loop h n k i r.
Proof.
  intros h n k. induction k as [|k IH]; intros i r H; [reflexivity |].
  simpl. unfold byte_at at 1. rewrite nth_firstn_lt by lia. apply IH. lia.
Qed.

Lemma reduce_firstn : forall h n r, reduce (firstn n h) n r = reduce h n r.
Proof.
  intros h n r. unfold reduce.
  rewrite xor_loop_firstn by (pose proof (Nat.Div0.mul_div_le n 4); lia).
  rewrite add_loop_firstn by (pose proof (Nat.Div0.mod_le n 4); lia).
  reflexivity.
Qed.

(** [reduce] reads only the first [hashLen] bytes of the hash: two hash buffers that agree on those bytes reduce to the same value in every round. *)
Theorem reduce_reads_hashLen_bytes : forall h1 h2 hashLen round,
  firstn hashLen h1 = firstn hashLen h2 -> reduce h1 hashLen round = reduce h2 hashLen round.
Proof.
  intros h1 h2 n r H. rewrite <- (reduce_firstn h1), <- (reduce_firstn h2), H. reflexivity.
Qed.

Lemma reduce_reads_hashLen_bytes_witness :
  firstn 4 [Byte.x01; Byte.x02; Byte.x03; Byte.x04; Byte.x05]
  = firstn 4 [Byte.x01; Byte.x02; Byte.x03; Byte.x04; Byte.xff] /\
  reduce [Byte.x01; Byte.x02; Byte.x03; Byte.x04; Byte.x05] 4 7
  = reduce [Byte.x01; Byte.x02; Byte.x03; Byte.x04; Byte.xff] 4 7.
Proof.
  assert (H : firstn 4 [Byte.x01; Byte.x02; Byte.x03; Byte.x04; Byte.x05]
              = firstn 4 [Byte.x01; Byte.x02; Byte.x03; Byte.x04; Byte.xff]) by reflexivity.
  split; [exact H | exact (reduce_reads_hashLen_bytes _ _ 4 7 H)].
Defined.

Lemma gen_loop_chain_seed : forall H hl s k i,
  gen_loop H hl k i (chain_seed H hl s i) = chain_seed H hl s (i + k).
Proof.
  intros H hl s k. induction k as [|k IH]; intros i.
  - rewrite Nat.add_0_r. reflexivity.
  - simpl. change (reduce (H (chain_seed H hl s i)) hl (Z.of_nat i)) with (chain_seed H hl s (S i)).
    rewrite IH. f_equal. lia.
Qed.

Lemma walk_hash_chain_seed : forall H hl s k i,
  walk_hash H hl k i (H (chain_seed H hl s i)) = H (chain_seed H hl s (i + k)).
Proof.
  intros H hl s k. induction k as [|k IH]; intros i.
  - rewrite Nat.add_0_r. reflexivity.
  - simpl. change (reduce (H (chain_seed H hl s i)) hl (Z.of_nat i)) with (chain_seed H hl s (S i)).
    rewrite IH. f_equal. f_equal. lia.
Qed.

(** Regenerating a chain from column [j < chainLen] (the inner loop of [searchHashInMemory]), starting from the hash of the value a chain built by [generateChain] holds at that column, ends at that chain's endpoint. *)
Theorem generateChain_column_endpoint : forall H chainLen hashLen tv st j,
  (j < chainLen)%nat ->
  let c := fst (generateChain H chainLen hashLen tv st) in
  reduce (walk_hash H hashLen (chainLen - 1 - j) j
            (H (chain_seed H hashLen (startpoint c) j)))
         hashLen (Z.of_nat (chainLen - 1))
  = endpoint c.
Proof.
  intros H cl hl tv st j Hj c. subst c. unfold generateChain.
  destruct (rand_cmwc tv st) as [s st']. cbn [fst startpoint endpoint].
  rewrite walk_hash_chain_seed.
  change (gen_loop H hl cl 0 s) with (gen_loop H hl cl 0 (chain_seed H hl s 0)).
  rewrite gen_loop_chain_seed. destruct cl as [|cl]; [lia |].
  replace (j + (S cl - 1 - j))%nat with cl by lia.
  replace (S cl - 1)%nat with cl by lia. reflexivity.
Qed.

Lemma generateChain_column_endpoint_witness :
  let H := fun (x : Z) => [Byte.x01; Byte.x02; Byte.x03; Byte.x04] in
  (1 < 3)%nat /\
  reduce (walk_hash H 4 (3 - 1 - 1) 1
            (H (chain_seed H 4 (startpoint (fst (generateChain H 3 4 5 cmwc_init))) 1)))
         4 (Z.of_nat (3 - 1))
  = endpoint (fst (generateChain H 3 4 5 cmwc_init)).
Proof.
  intros H. split; [lia |].
  exact (generateChain_column_endpoint H 3 4 5 cmwc_init 1 ltac:(lia)).
Defined.

Lemma bsearch_loop_S : forall f t ep beg end_,
  bsearch_loop (S f) t ep beg end_ =
  if beg <? end_ then
    let mid := u32 (beg + end_) / 2 in
    c <- rd t mid ;;
    if ep <? endpoint c then bsearch_loop f t ep beg mid
    else if ep >? endpoint c then bsearch_loop f t ep (u32 (mid + 1)) end_
    else
      mid' <- walk_back (S (List.length t)) t ep mid ;;
      Done (Some (u32 (if mid' <? 0 then 0 else mid' + 1)))
  else Done None.
Proof. reflexivity. Qed.

Lemma searchTable_zero : forall t ep,
  Z.of_nat (List.length t) <= 2147483647 -> searchTable t 0 ep = Fault 2147483647.
Proof.
  intros t ep Hl. unfold searchTable.
  change (u32 (0 - 1)) with 4294967295. change 64%nat with (S 63). rewrite bsearch_loop_S.
  change (0 <? 4294967295) with true. cbv iota.
  change (u32 (0 + 4294967295) / 2) with 2147483647.
  unfold rd. replace (2147483647 <? Z.of_nat (List.length t)) with false
    by (symmetry; apply Z.ltb_ge; lia).
  reflexivity.
Qed.

(** With [chainNum = 0], [searchHashInMemory] searches the first column exactly when [1 <= chainLen <= 2^31]; it then calls [searchTable] with [chainNum - 1] wrapped to [UINT_MAX], and the binary search reads the table at index [2147483647], out of bounds.  For [chainLen = 0] or [chainLen > 2^31] the column counter [int j] starts negative, and the function returns 0 without reading the table. *)
Theorem searchHashInMemory_zero_chains : forall table chainLen H hashLen target,
  Z.of_nat (List.length table) <= 2147483647 ->
  searchHashInMemory table 0 chainLen H hashLen target =
  if (1 <=? Z.of_nat chainLen) && (Z.of_nat chainLen <=? 2 ^ 31)
  then Fault 2147483647 else Done None.
Proof.
  intros t cl H hl target Hl. unfold searchHashInMemory.
  destruct cl as [|cl]; [reflexivity |].
  replace (1 <=? Z.of_nat (S cl)) with true by (symmetry; apply Z.leb_le; lia).
  cbn [andb]. destruct (Z.of_nat (S cl) <=? 2 ^ 31); [| reflexivity].
  cbn [search_columns]. unfold search_column. cbn zeta.
  rewrite searchTable_zero by exact Hl. reflexivity.
Qed.

Lemma searchHashInMemory_zero_chains_witness :
  Z.of_nat (List.length [mkChain 1 2; mkChain 3 4]) <= 2147483647 /\
  searchHashInMemory [mkChain 1 2; mkChain 3 4] 0 3 (fun _ => []) 4 [] =
  if (1 <=? Z.of_nat 3) && (Z.of_nat 3 <=? 2 ^ 31) then Fault 2147483647 else Done None.
Proof.
  assert (Hl : Z.of_nat (List.length [mkChain 1 2; mkChain 3 4]) <= 2147483647) by (simpl; lia).
  split; [exact Hl |].
  exact (searchHashInMemory_zero_chains [mkChain 1 2; mkChain 3 4] 3 (fun _ => []) 4 [] Hl).
Defined.

Lemma walk_back_done : forall fuel t ep m,
  -1 <= m < Z.of_nat (List.length t) -> (Z.to_nat (m + 1) < fuel)%nat ->
  exists v, walk_back fuel t ep m = Done v.
Proof.
  intros fuel. induction fuel as [|fuel IH]; intros t ep m Hm Hf; [lia |].
  cbn [walk_back]. destruct (0 <=? m) eqn:E0.
  - apply Z.leb_le in E0. unfold rd.
    replace ((0 <=? m) && (m <? Z.of_nat (List.length t))) with true
      by (symmetry; apply andb_true_iff; split; [apply Z.leb_le | apply Z.ltb_lt]; lia).
    cbn [obind]. destruct (ep =? endpoint _).
    + apply IH; lia.
    + eexists; reflexivity.
  - eexists; reflexivity.
Qed.

Lemma bsearch_done : forall f t ep beg end_,
  0 <= beg -> end_ < Z.of_nat (List.length t) -> end_ < 2 ^ 31 ->
  end_ - beg < 2 ^ Z.of_nat f ->
  exists v, bsearch_loop (S f) t ep beg end_ = Done v.
Proof.
  intros f. induction f as [|f IH]; intros t ep beg end_ Hb He He' Hd.
  - rewrite bsearch_loop_S. replace (beg <? end_) with false
      by (symmetry; apply Z.ltb_ge; simpl in Hd; lia). eexists; reflexivity.
  - rewrite bsearch_loop_S. destruct (beg <? end_) eqn:Elt; [| eexists; reflexivity].
    apply Z.ltb_lt in Elt.
    rewrite Nat2Z.inj_succ, Z.pow_succ_r in Hd by lia.
    pose proof (Z.pow_pos_nonneg 2 (Z.of_nat f) ltac:(lia) ltac:(lia)) as Hp.
    set (P := 2 ^ Z.of_nat f) in *.
    rewrite (u32_id (beg + end_)) by lia.
    set (mid := (beg + end_) / 2).
    assert (Hm1 : beg <= mid) by (subst mid; apply Z.div_le_lower_bound; lia).
    assert (Hm2 : mid < end_) by (subst mid; apply Z.div_lt_upper_bound; lia).
    assert (Hm3 : 2 * mid <= beg + end_) by (subst mid; apply Z.mul_div_le; lia).
    assert (Hm4 : beg + end_ - 1 <= 2 * mid) by
      (subst mid; pose proof (Z.mod_pos_bound (beg + end_) 2 ltac:(lia));
       pose proof (Z.div_mod (beg + end_) 2 ltac:(lia)); lia).
    unfold rd at 1.
    replace ((0 <=? mid) && (mid <? Z.of_nat (List.length t))) with true
      by (symmetry; apply andb_true_iff; split; [apply Z.leb_le | apply Z.ltb_lt]; lia).
    cbn [obind].
    destruct (ep <? endpoint _).
    + apply IH; lia.
    + destruct (ep >? endpoint _).
      * rewrite (u32_id (mid + 1)) by lia. apply IH; lia.
      * destruct (walk_back_done (S (List.length t)) t ep mid) as [v Hv]; [lia | lia |].
        rewrite Hv. cbn [obind]. eexists; reflexivity.
Qed.

(** For [1 <= chainNum <= ] the table length (with [chainNum < 2^31]), [searchTable] completes without reading outside the table. *)
Theorem searchTable_in_bounds : forall table chainNum ep,
  1 <= chainNum <= Z.of_nat (List.length table) -> chainNum < 2 ^ 31 ->
  exists res, searchTable table chainNum ep = Done res.
Proof.
  intros t cn ep Hc Hc'. unfold searchTable.
  rewrite (u32_id (cn - 1)) by lia.
  change 64%nat with (S 63). apply bsearch_done; [lia | lia | lia |].
  change (2 ^ Z.of_nat 63) with 9223372036854775808. lia.
Qed.

Lemma searchTable_in_bounds_witness :
  (1 <= 3 <= Z.of_nat (List.length [mkChain 0 1; mkChain 0 5; mkChain 0 9]) /\ 3 < 2 ^ 31) /\
  exists res, searchTable [mkChain 0 1; mkChain 0 5; mkChain 0 9] 3 5 = Done res.
Proof.
  assert (H1 : 1 <= 3 <= Z.of_nat (List.length [mkChain 0 1; mkChain 0 5; mkChain 0 9])) by (simpl; lia).
  assert (H2 : 3 < 2 ^ 31) by lia.
  split; [split; [exact H1 | exact H2] |].
  exact (searchTable_in_bounds _ 3 5 H1 H2).
Defined.

(* ------------------------------------------------------------------ *)
(** ** [rand_cmwc] and [chainGenerationWorker] *)

(* CMWC *)
Lemma srand_fill_ok : forall k i a b c,
  word32 a -> word32 b -> word32 c -> 0 <= i -> i + Z.of_nat k <= 2 ^ 32 ->
  List.length (srand_fill k i a b c) = k /\ Forall word32 (srand_fill k i a b c).
Proof.
  intros k. induction k as [|k IH]; intros i a b c Ha Hb Hc Hi Hk.
  - split; [reflexivity | constructor].
  - cbn [srand_fill]. cbv zeta.
    assert (Hv : word32 (Z.lxor (Z.lxor (Z.lxor a b) PHI) i)).
    { unfold word32 in *. apply lxor_range; [apply lxor_range; [apply lxor_range; assumption |] |];
      unfold PHI; lia. }
    destruct (IH (i + 1) b c _ Hb Hc Hv ltac:(lia) ltac:(lia)) as [Hl Hf].
    split; [cbn [List.length]; rewrite Hl; reflexivity | constructor; assumption].
Qed.

Lemma srand_cmwc_ok : forall x, word32 x ->
  List.length (srand_cmwc x) = 4096%nat /\ Forall word32 (srand_cmwc x).
Proof.
  intros x Hx. unfold srand_cmwc.
  destruct (srand_fill_ok 4093 3 x (u32 (x + PHI)) (u32 (x + PHI + PHI)))
    as [Hl Hf]; try (unfold word32; apply u32_range); try lia; [exact Hx |].
  split.
  - rewrite length_app, Hl. reflexivity.
  - apply Forall_app. split; [| exact Hf].
    constructor; [exact Hx |].
    constructor; [apply u32_range |]. constructor; [apply u32_range | constructor].
Qed.

Lemma zupd_length : forall q i v, List.length (zupd q i v) = List.length q.
Proof.
  intros q. induction q as [|x q IH]; intros [|i] v; simpl; try rewrite IH; reflexivity.
Qed.

Lemma zupd_Forall : forall P q i v, Forall P q -> P v -> Forall P (zupd q i v).
Proof.
  intros P q. induction q as [|x q IH]; intros [|i] v Hq Hv; simpl.
  - constructor.
  - constructor.
  - inversion Hq. constructor; assumption.
  - inversion Hq. constructor; [assumption | apply IH; assumption].
Qed.

Lemma zupd_nth : forall q i v d, (i < List.length q)%nat -> nth i (zupd q i v) d = v.
Proof.
  intros q. induction q as [|x q IH]; intros [|i] v d H; simpl in *.
  - lia.
  - lia.
  - reflexivity.
  - apply IH. lia.
Qed.

Lemma cmwc_carry : forall q c, word32 q -> word32 c ->
  (18782 * q + c) / 2 ^ 32 <= 18782 /\
  ((18782 * q + c + (18782 * q + c) / 2 ^ 32) mod 2 ^ 32 < (18782 * q + c) / 2 ^ 32 ->
   (18782 * q + c) / 2 ^ 32 < 18782).
Proof.
  intros q c Hq Hc. unfold word32 in *. set (t := 18782 * q + c).
  assert (Hle : t / 2 ^ 32 <= 18782).
  { assert (t / 2 ^ 32 < 18783) by (apply Z.div_lt_upper_bound; subst t; lia). lia. }
  split; [exact Hle |]. intros Hx.
  destruct (Z.eq_dec (t / 2 ^ 32) 18782) as [E | E]; [| lia].
  pose proof (Z.div_mod t (2 ^ 32) ltac:(lia)) as Ht.
  pose proof (Z.mod_pos_bound t (2 ^ 32) ltac:(lia)) as Hm.
  rewrite E in Ht, Hx. set (m := t mod 2 ^ 32) in *.
  replace (t + 18782) with ((m + 18782) + 18782 * 2 ^ 32) in Hx by lia.
  rewrite Z.mod_add in Hx by lia. rewrite Z.mod_small in Hx by (subst t; lia). lia.
Qed.

(** From a well-formed generator state, [rand_cmwc] seeds if needed, keeps a 4096-entry table of 32-bit words, keeps the carry at most [18782] and the index below [4096], and returns the 32-bit value it stored at the new index. *)
Theorem rand_cmwc_step : forall tv st, cmwc_ok st ->
  let '(r, st') := rand_cmwc tv st in
  cmwc_ok st' /\ cmwc_seeded st' = true /\ 0 <= cmwc_i st' < 4096 /\
  cmwc_c st' <= 18782 /\ word32 r /\ nth (Z.to_nat (cmwc_i st')) (cmwc_Q st') 0 = r.
Proof.
  intros tv st [Hc Hs]. unfold rand_cmwc.
  set (st1 := if cmwc_seeded st then st else mkCmwc (srand_cmwc (u32 tv)) (cmwc_c st) (cmwc_i st) true).
  assert (H1 : word32 (cmwc_c st1) /\ List.length (cmwc_Q st1) = 4096%nat /\ Forall word32 (cmwc_Q st1)).
  { subst st1. destruct (cmwc_seeded st) eqn:E.
    - destruct (Hs eq_refl). unfold word32. auto.
    - cbn [cmwc_c cmwc_Q]. destruct (srand_cmwc_ok (u32 tv)) as [Hl Hf];
        [apply u32_range |]. unfold word32. auto. }
  clearbody st1. destruct H1 as [Hc1 [Hl1 Hf1]].
  set (i := Z.land (u32 (cmwc_i st1 + 1)) 4095).
  assert (Hi : 0 <= i < 4096).
  { subst i. change 4095 with (Z.ones 12). rewrite Z.land_ones by lia.
    apply Z.mod_pos_bound. lia. }
  set (qi := nth (Z.to_nat i) (cmwc_Q st1) 0).
  assert (Hqi : word32 qi).
  { subst qi. rewrite Forall_forall in Hf1. apply Hf1. apply nth_In. lia. }
  set (t := 18782 * qi + cmwc_c st1).
  rewrite Z.shiftr_div_pow2 by lia.
  destruct (cmwc_carry qi (cmwc_c st1) Hqi Hc1) as [Hc2 Hc3]. fold t in Hc2, Hc3.
  assert (Hdt : 0 <= t / 2 ^ 32) by (apply Z.div_pos; unfold word32 in *; subst t; lia).
  rewrite (u32_id (t / 2 ^ 32)) by lia.
  change ((t + t / 2 ^ 32) mod 2 ^ 32) with (u32 (t + t / 2 ^ 32)) in Hc3.
  destruct (u32 (t + t / 2 ^ 32) <? t / 2 ^ 32) eqn:Ex.
  - apply Z.ltb_lt in Ex. specialize (Hc3 Ex).
    rewrite (u32_id (t / 2 ^ 32 + 1)) by lia.
    assert (Hr : word32 (u32 (4294967294 - u32 (u32 (t + t / 2 ^ 32) + 1)))) by apply u32_range.
    cbn [cmwc_c cmwc_i cmwc_Q cmwc_seeded]. unfold cmwc_ok. cbn [cmwc_c cmwc_Q].
    rewrite zupd_length, Hl1.
    split; [split; [lia | intros _; split; [reflexivity | apply zupd_Forall; assumption]] |].
    split; [reflexivity |]. split; [exact Hi |]. split; [lia |]. split; [exact Hr |].
    apply zupd_nth. lia.
  - assert (Hr : word32 (u32 (4294967294 - u32 (t + t / 2 ^ 32)))) by apply u32_range.
    cbn [cmwc_c cmwc_i cmwc_Q cmwc_seeded]. unfold cmwc_ok. cbn [cmwc_c cmwc_Q].
    rewrite zupd_length, Hl1.
    split; [split; [lia | intros _; split; [reflexivity | apply zupd_Forall; assumption]] |].
    split; [reflexivity |]. split; [exact Hi |]. split; [lia |]. split; [exact Hr |].
    apply zupd_nth. lia.
Qed.

Lemma cmwc_init_ok : cmwc_ok cmwc_init.
Proof. split; [cbn; lia | discriminate]. Qed.

Lemma rand_cmwc_step_witness :
  cmwc_ok cmwc_init /\
  let '(r, st') := rand_cmwc 7 cmwc_init in
  cmwc_ok st' /\ cmwc_seeded st' = true /\ 0 <= cmwc_i st' < 4096 /\
  cmwc_c st' <= 18782 /\ word32 r /\ nth (Z.to_nat (cmwc_i st')) (cmwc_Q st') 0 = r.
Proof.
  assert (H : cmwc_ok cmwc_init) by (split; [cbn; lia | discriminate]).
  split; [exact H | exact (rand_cmwc_step 7 cmwc_init H)].
Defined.

(* generation worker *)
Lemma generateChain_ok : forall H cl hl tv st,
  chain_ok H hl cl (fst (generateChain H cl hl tv st)).
Proof.
  intros H cl hl tv st. unfold generateChain, chain_ok.
  destruct (rand_cmwc tv st) as [s st']. cbn [fst startpoint endpoint].
  exact (gen_loop_chain_seed H hl s cl 0).
Qed.

Lemma gen_chains_ok : forall H cl hl tv n st l st',
  gen_chains H cl hl tv n st = (l, st') ->
  List.length l = n /\ Forall (chain_ok H hl cl) l.
Proof.
  intros H cl hl tv n. induction n as [|n IH]; intros st l st' E.
  - cbn in E. inversion E. split; [reflexivity | constructor].
  - cbn [gen_chains] in E.
    pose proof (generateChain_ok H cl hl tv st) as Hc.
    destruct (generateChain H cl hl tv st) as [ch st1].
    destruct (gen_chains H cl hl tv n st1) as [rest st2] eqn:Er.
    injection E as <- <-. destruct (IH st1 rest st2 Er) as [Hl Hf].
    split; [cbn; rewrite Hl; reflexivity | constructor; assumption].
Qed.

Section Worker.
Variable H : hashFuncPtr.
Variables chainNum chainLen hashLen : nat.
Variable tv : Z.

Let Nz := Z.of_nat chainNum.
Let rem (i : Z) : Z := Z.max 0 (Nz - 8192 * i).

Lemma chunk_split : forall i, 0 <= i <= Nz / 8192 ->
  let cL := if i <? Nz / WORKER_BUFFER_SIZE then WORKER_BUFFER_SIZE else Nz mod WORKER_BUFFER_SIZE in
  0 <= cL /\ rem i = cL + rem (i + 1).
Proof.
  intros i Hi cL. subst cL. unfold rem, WORKER_BUFFER_SIZE.
  pose proof (Z.div_mod Nz 8192 ltac:(lia)).
  pose proof (Z.mod_pos_bound Nz 8192 ltac:(lia)).
  destruct (i <? Nz / 8192) eqn:E; [apply Z.ltb_lt in E | apply Z.ltb_ge in E]; lia.
Qed.

Lemma worker_chunks_ok : forall k i st f,
  0 <= i -> i + Z.of_nat k = Nz / 8192 + 1 -> rem i <= Z.of_nat (file_room f) ->
  exists chains st',
    worker_chunks H chainNum chainLen hashLen tv k i st f
    = (0, st', mkFile (file_data f ++ chains) (file_room f - Z.to_nat (rem i))) /\
    Z.of_nat (List.length chains) = rem i /\ Forall (chain_ok H hashLen chainLen) chains.
Proof.
  intros k. induction k as [|k IH]; intros i st f Hi Hk Hr.
  - assert (E0 : rem i = 0).
    { unfold rem. pose proof (Z.div_mod Nz 8192 ltac:(lia)).
      pose proof (Z.mod_pos_bound Nz 8192 ltac:(lia)). lia. }
    exists [], st. rewrite E0. destruct f as [d room]. cbn.
    rewrite app_nil_r, Nat.sub_0_r. split; [reflexivity | split; [reflexivity | constructor]].
  - destruct (chunk_split i ltac:(lia)) as [HcL Hsplit].
    cbn [worker_chunks]. fold Nz.
    set (cL := if i <? Nz / WORKER_BUFFER_SIZE then WORKER_BUFFER_SIZE
               else Nz mod WORKER_BUFFER_SIZE) in *.
    destruct (gen_chains H chainLen hashLen tv (Z.to_nat cL) st) as [buf st1] eqn:Eg.
    destruct (gen_chains_ok _ _ _ _ _ _ _ _ Eg) as [Hlb Hfb].
    assert (Hr0 : 0 <= rem (i + 1)) by (unfold rem; lia).
    unfold fwrite.
    replace (Nat.min (List.length buf) (file_room f)) with (List.length buf) by lia.
    rewrite firstn_all.
    replace (Z.of_nat (List.length buf) =? cL) with true by (symmetry; apply Z.eqb_eq; lia).
    cbn [negb].
    destruct (IH (i + 1) st1 (mkFile (file_data f ++ buf) (file_room f - List.length buf)))
      as [chains [st' [E [Hl Hf]]]]; [lia | lia | cbn [file_room]; lia |].
    rewrite E. exists (buf ++ chains), st'. cbn [file_data file_room].
    split; [| split].
    + rewrite app_assoc. f_equal. f_equal. lia.
    + rewrite length_app. lia.
    + apply Forall_app. split; assumption.
Qed.
End Worker.

(** When the file has room for [chainNum] chains, [chainGenerationWorker] returns 0 and appends exactly [chainNum] chains, each of whose endpoint is its startpoint walked [chainLen] hash-and-reduce steps. *)
Theorem chainGenerationWorker_writes_chainNum : forall H chainNum chainLen hashLen tv st f,
  (chainNum <= file_room f)%nat ->
  exists chains st',
    chainGenerationWorker H chainNum chainLen hashLen tv st f
    = (0, st', mkFile (file_data f ++ chains) (file_room f - chainNum)) /\
    List.length chains = chainNum /\
    Forall (fun c => endpoint c = chain_seed H hashLen (startpoint c) chainLen) chains.
Proof.
  intros H N cl hl tv st f Hroom. unfold chainGenerationWorker.
  destruct (worker_chunks_ok H N cl hl tv (Z.to_nat (Z.of_nat N / WORKER_BUFFER_SIZE + 1)) 0 st f)
    as [chains [st' [E [Hl Hf]]]].
  - lia.
  - unfold WORKER_BUFFER_SIZE. pose proof (Z.div_pos (Z.of_nat N) 8192 ltac:(lia) ltac:(lia)). lia.
  - lia.
  - exists chains, st'. rewrite E. split; [| split].
    + f_equal. f_equal. lia.
    + lia.
    + exact Hf.
Qed.

Lemma chainGenerationWorker_writes_chainNum_witness :
  (2 <= file_room (mkFile [] 5))%nat /\
  exists chains st',
    chainGenerationWorker (fun _ => [Byte.x01; Byte.x02; Byte.x03; Byte.x04]) 2 3 4 9 cmwc_init
      (mkFile [] 5)
    = (0, st', mkFile (file_data (mkFile [] 5) ++ chains) (file_room (mkFile [] 5) - 2)) /\
    List.length chains = 2%nat /\
    Forall (fun c => endpoint c = chain_seed (fun _ => [Byte.x01; Byte.x02; Byte.x03; Byte.x04])
                                    4 (startpoint c) 3) chains.
Proof.
  assert (Hr : (2 <= file_room (mkFile [] 5))%nat) by (cbn; lia).
  split; [exact Hr | exact (chainGenerationWorker_writes_chainNum _ 2 3 4 9 cmwc_init _ Hr)].
Defined.

(* ------------------------------------------------------------------ *)
(** ** [createRainbowTable], [generateRainbowTable], [resolveHashFunc] *)

Lemma share_loop_length : forall T n k i, List.length (share_loop T n k i) = k.
Proof. intros T n k. induction k as [|k IH]; intros i; cbn; [| rewrite IH]; reflexivity. Qed.

Lemma share_loop_sum : forall T n k i, 1 <= T < 2 ^ 32 -> 0 <= n < 2 ^ 32 ->
  0 <= i -> i + Z.of_nat k = T ->
  fold_right Z.add 0 (share_loop T n k i)
  = Z.of_nat k * (n / T) + (if (k =? 0)%nat then 0 else n mod T).
Proof.
  intros T n k. induction k as [|k IH]; intros i HT Hn Hi Hk; [reflexivity |].
  cbn [share_loop fold_right]. rewrite (u32_id (T - 1)) by lia.
  pose proof (Z.div_mod n T ltac:(lia)) as Hd.
  pose proof (Z.mod_pos_bound n T ltac:(lia)) as Hm.
  pose proof (Z.div_pos n T ltac:(lia) ltac:(lia)) as Hq.
  assert (HqT : n / T <= T * (n / T)) by nia.
  destruct k as [|k].
  - replace (i <? T - 1) with false by (symmetry; apply Z.ltb_ge; lia).
    rewrite (u32_id (n / T + n mod T)) by lia. cbn [share_loop fold_right Nat.eqb]. lia.
  - replace (i <? T - 1) with true by (symmetry; apply Z.ltb_lt; lia).
    rewrite (IH (i + 1)) by lia. cbn [Nat.eqb]. lia.
Qed.

(** The thread count of [createRainbowTable] is at least 1, one share is computed per thread, and the shares add up to [chainNum]. *)
Theorem worker_shares_sum : forall conf chainNum,
  conf < 2 ^ 32 -> 0 <= chainNum < 2 ^ 32 ->
  let T := threadNum conf in
  1 <= T /\ Z.of_nat (List.length (worker_shares T chainNum)) = T /\
  fold_right Z.add 0 (worker_shares T chainNum) = chainNum.
Proof.
  intros conf n Hc Hn T.
  assert (HT : 1 <= T < 2 ^ 32).
  { subst T. unfold threadNum. destruct (conf <=? 0) eqn:E; [lia |].
    apply Z.leb_gt in E. rewrite u32_id by lia. lia. }
  unfold worker_shares. split; [lia |]. split.
  - rewrite share_loop_length. lia.
  - rewrite share_loop_sum by lia.
    replace (Z.to_nat T =? 0)%nat with false by (symmetry; apply Nat.eqb_neq; lia).
    rewrite Z2Nat.id by lia. symmetry. apply Z.div_mod. lia.
Qed.

Lemma worker_shares_sum_witness :
  (6 < 2 ^ 32 /\ 0 <= 100 < 2 ^ 32) /\
  let T := threadNum 6 in
  1 <= T /\ Z.of_nat (List.length (worker_shares T 100)) = T /\
  fold_right Z.add 0 (worker_shares T 100) = 100.
Proof.
  assert (H1 : 6 < 2 ^ 32) by lia. assert (H2 : 0 <= 100 < 2 ^ 32) by lia.
  split; [split; [exact H1 | exact H2] | exact (worker_shares_sum 6 100 H1 H2)].
Defined.



(** Whatever records [createRainbowTable] leaves in the table file, when it succeeds and [mmap] then fails in [sortRainbowTable] (after [open] and [fstat] succeed), [generateRainbowTable] still returns 1 and the file keeps those records unsorted. *)
Theorem generateRainbowTable_mmap_failure : forall libs create env chainNum name e rc table,
  resolveHashFunc libs name = Some e -> create e = (rc, table) -> 0 <= rc ->
  open_ok env = true -> fstat_ok env = true -> mmap_ok env = false ->
  generateRainbowTable libs create env chainNum name = (1, table).
Proof.
  intros libs create env n name e rc t He Hc Hrc Ho Hf Hm.
  unfold generateRainbowTable, sortRainbowTable. rewrite He, Hc, Ho, Hf, Hm.
  replace (rc <? 0) with false by (symmetry; apply Z.ltb_ge; exact Hrc). reflexivity.
Qed.

Lemma generateRainbowTable_mmap_failure_witness :
  let libs := fun i : nat => if (i =? 2)%nat then Lib [demo_entry] else NoLib in
  let create := fun _ : hashFuncEntry => (1, [mkChain 0 9; mkChain 1 3]) in
  let env := mkSortEnv true true false in
  (resolveHashFunc libs (list_ascii_of_string "md5") = Some demo_entry /\
   create demo_entry = (1, [mkChain 0 9; mkChain 1 3]) /\ 0 <= 1 /\
   open_ok env = true /\ fstat_ok env = true /\ mmap_ok env = false) /\
  generateRainbowTable libs create env 2 (list_ascii_of_string "md5") = (1, [mkChain 0 9; mkChain 1 3]).
Proof.
  intros libs create env.
  assert (H1 : resolveHashFunc libs (list_ascii_of_string "md5") = Some demo_entry) by reflexivity.
  assert (H2 : create demo_entry = (1, [mkChain 0 9; mkChain 1 3])) by reflexivity.
  assert (H3 : 0 <= 1) by lia.
  assert (H4 : open_ok env = true) by reflexivity.
  assert (H5 : fstat_ok env = true) by reflexivity.
  assert (H6 : mmap_ok env = false) by reflexivity.
  split; [repeat split; assumption |].
  exact (generateRainbowTable_mmap_failure libs create env 2 _ _ _ _ H1 H2 H3 H4 H5 H6).
Defined.

(** When every system call succeeds and the table file written by [createRainbowTable] holds exactly [chainNum < 2^31] records (with 32-bit endpoints), [generateRainbowTable] returns 1 and leaves the file as a permutation of those records, sorted by endpoint. *)
Theorem generateRainbowTable_sorts : forall libs create env chainNum name e rc table,
  resolveHashFunc libs name = Some e -> create e = (rc, table) -> 0 <= rc ->
  open_ok env = true -> fstat_ok env = true -> mmap_ok env = true ->
  Z.of_nat (List.length table) = chainNum -> chainNum < 2 ^ 31 ->
  Forall (fun c => 0 <= endpoint c < 2 ^ 32) table ->
  let g := generateRainbowTable libs create env chainNum name in
  fst g = 1 /\ Permutation (snd g) table /\ sorted_by_endpoint (snd g) chainNum.
Proof.
  intros libs create env n name e rc t He Hc Hrc Ho Hf Hm Hn Hlt Hr g. subst g n.
  unfold generateRainbowTable, sortRainbowTable. rewrite He, Hc, Ho, Hf, Hm.
  replace (rc <? 0) with false by (symmetry; apply Z.ltb_ge; exact Hrc). cbn [negb].
  replace (1 <? 0) with false by reflexivity. cbn [fst snd]. split; [reflexivity |].
  unfold quickSortTable. rewrite Z.sub_0_r, Nat2Z.id.
  destruct (qsort_spec (List.length t) [] t [] 0 (Z.of_nat (List.length t)))
    as [S' [Hq [Hp Hs]]]; [reflexivity | reflexivity | exact Hlt | lia | exact Hr |].
  rewrite !app_nil_r in Hq. simpl in Hq. rewrite Hq. split; [exact Hp |].
  intros i Hi Hn. unfold get.
  replace (Z.to_nat (i + 1)) with (S (Z.to_nat i)) by lia.
  apply sorted_adjacent with (R := fun a b => endpoint a <= endpoint b); [exact Hs |].
  rewrite (Permutation_length Hp). lia.
Qed.

Lemma generateRainbowTable_sorts_witness :
  let libs := fun i : nat => if (i =? 2)%nat then Lib [demo_entry] else NoLib in
  let create := fun _ : hashFuncEntry => (1, [mkChain 0 9; mkChain 1 3]) in
  let env := mkSortEnv true true true in
  let table := [mkChain 0 9; mkChain 1 3] in
  (resolveHashFunc libs (list_ascii_of_string "md5") = Some demo_entry /\
   create demo_entry = (1, table) /\ 0 <= 1 /\
   open_ok env = true /\ fstat_ok env = true /\ mmap_ok env = true /\
   Z.of_nat (List.length table) = 2 /\ 2 < 2 ^ 31 /\
   Forall (fun c => 0 <= endpoint c < 2 ^ 32) table) /\
  (let g := generateRainbowTable libs create env 2 (list_ascii_of_string "md5") in
   fst g = 1 /\ Permutation (snd g) table /\ sorted_by_endpoint (snd g) 2).
Proof.
  intros libs create env table.
  assert (H1 : resolveHashFunc libs (list_ascii_of_string "md5") = Some demo_entry) by reflexivity.
  assert (H2 : create demo_entry = (1, table)) by reflexivity.
  assert (H3 : 0 <= 1) by lia.
  assert (H4 : open_ok env = true) by reflexivity.
  assert (H5 : fstat_ok env = true) by reflexivity.
  assert (H6 : mmap_ok env = true) by reflexivity.
  assert (H7 : Z.of_nat (List.length table) = 2) by reflexivity.
  assert (H7' : 2 < 2 ^ 31) by lia.
  assert (H8 : Forall (fun c => 0 <= endpoint c < 2 ^ 32) table).
  { subst table. constructor; [cbn; lia |]. constructor; [cbn; lia |]. constructor. }
  split; [repeat split; assumption |].
  exact (generateRainbowTable_sorts libs create env 2 _ _ _ _ H1 H2 H3 H4 H5 H6 H7 H7' H8).
Defined.

(* resolveHashFunc *)
Lemma streq_true : forall a b, streq a b = true <-> a = b.
Proof. intros a b. unfold streq. destruct (list_eq_dec ascii_dec a b); split; congruence. Qed.

Lemma find_entry_None : forall hf name,
  find_entry hf name = None <-> Forall (fun e => hashName e <> name) hf.
Proof.
  intros hf name. induction hf as [|e hf IH]; cbn [find_entry].
  - split; [constructor | reflexivity].
  - destruct (streq (hashName e) name) eqn:E.
    + apply streq_true in E. split; [discriminate | intros Hf; inversion Hf; contradiction].
    + rewrite IH. split.
      * intros Hf. constructor; [intros Heq; apply streq_true in Heq; congruence | exact Hf].
      * intros Hf. inversion Hf. assumption.
Qed.

Lemma find_entry_Some : forall hf name e,
  find_entry hf name = Some e <->
  exists pre post, hf = pre ++ e :: post /\ hashName e = name /\
                   Forall (fun e' => hashName e' <> name) pre.
Proof.
  intros hf name e. induction hf as [|e0 hf IH]; cbn [find_entry].
  - split; [discriminate | intros [pre [post [Hh _]]]; destruct pre; discriminate].
  - destruct (streq (hashName e0) name) eqn:E.
    + apply streq_true in E. split.
      * intros Hs. injection Hs as <-. exists [], hf. auto.
      * intros [pre [post [Hh [Hn Hf]]]]. destruct pre as [|p pre].
        -- injection Hh as -> _. reflexivity.
        -- injection Hh as -> _. inversion Hf. contradiction.
    + rewrite IH. split.
      * intros [pre [post [Hh [Hn Hf]]]]. exists (e0 :: pre), post. subst hf.
        split; [reflexivity | split; [exact Hn |]].
        constructor; [intros Heq; apply streq_true in Heq; congruence | exact Hf].
      * intros [pre [post [Hh [Hn Hf]]]]. destruct pre as [|p pre].
        -- injection Hh as -> _. subst name. apply Bool.not_true_iff_false in E.
           exfalso. apply E. apply streq_true. reflexivity.
        -- injection Hh as -> Hh. inversion Hf. exists pre, post. auto.
Qed.

Lemma resolve_loop_None : forall libs name k i,
  resolve_loop libs name k i = None <->
  forall m, (i <= m < i + k)%nat -> lib_misses (libs m) name.
Proof.
  intros libs name k. induction k as [|k IH]; intros i; cbn [resolve_loop].
  - split; [intros _ m Hm; lia | reflexivity].
  - assert (Hstep : (forall m, (S i <= m < S i + k)%nat -> lib_misses (libs m) name) ->
                    lib_misses (libs i) name ->
                    forall m, (i <= m < i + S k)%nat -> lib_misses (libs m) name).
    { intros Hr Hi m Hm. destruct (Nat.eq_dec m i) as [-> | Hne]; [exact Hi | apply Hr; lia]. }
    destruct (libs i) as [| | hf] eqn:Ei.
    + rewrite IH. split; [intros Hr; apply Hstep; [exact Hr | intros hf' Hh; discriminate] |].
      intros Hr m Hm. apply Hr. lia.
    + rewrite IH. split; [intros Hr; apply Hstep; [exact Hr | intros hf' Hh; discriminate] |].
      intros Hr m Hm. apply Hr. lia.
    + destruct (find_entry hf name) as [e |] eqn:Ef.
      * split; [discriminate |]. intros Hr. exfalso.
        assert (Hm : lib_misses (libs i) name) by (apply Hr; lia).
        rewrite Ei in Hm. specialize (Hm hf eq_refl). apply find_entry_None in Hm. congruence.
      * rewrite IH. split.
        -- intros Hr. apply Hstep; [exact Hr |]. intros hf' Hh.
           injection Hh as <-. apply find_entry_None. exact Ef.
        -- intros Hr m Hm. apply Hr. lia.
Qed.

Lemma resolve_loop_Some : forall libs name k i e,
  resolve_loop libs name k i = Some e <->
  exists m hf, (i <= m < i + k)%nat /\ libs m = Lib hf /\ find_entry hf name = Some e /\
    forall j, (i <= j < m)%nat -> lib_misses (libs j) name.
Proof.
  intros libs name k. induction k as [|k IH]; intros i e; cbn [resolve_loop].
  - split; [discriminate | intros [m [hf [Hm _]]]; lia].
  - assert (Hshift : forall P : Prop,
              lib_misses (libs i) name ->
              (P <-> exists m hf, (S i <= m < S i + k)%nat /\ libs m = Lib hf /\
                 find_entry hf name = Some e /\
                 forall j, (S i <= j < m)%nat -> lib_misses (libs j) name) ->
              (P <-> exists m hf, (i <= m < i + S k)%nat /\ libs m = Lib hf /\
                 find_entry hf name = Some e /\
                 forall j, (i <= j < m)%nat -> lib_misses (libs j) name)).
    { intros P Hmiss HP. rewrite HP. split.
      - intros [m [hf [Hm [Hl [Hf Hb]]]]]. exists m, hf.
        split; [lia |]. split; [exact Hl |]. split; [exact Hf |].
        intros j Hj. destruct (Nat.eq_dec j i) as [-> | Hne]; [exact Hmiss | apply Hb; lia].
      - intros [m [hf [Hm [Hl [Hf Hb]]]]]. exists m, hf.
        destruct (Nat.eq_dec m i) as [-> | Hne].
        + exfalso. specialize (Hmiss hf Hl). apply find_entry_None in Hmiss. congruence.
        + split; [lia |]. split; [exact Hl |]. split; [exact Hf |].
          intros j Hj. apply Hb. lia. }
    destruct (libs i) as [| | hf] eqn:Ei.
    + apply Hshift; [intros hf' Hh; discriminate | apply IH].
    + apply Hshift; [intros hf' Hh; discriminate | apply IH].
    + destruct (find_entry hf name) as [e0 |] eqn:Ef.
      * split.
        -- intros Hs. injection Hs as <-. exists i, hf.
           split; [lia |]. split; [exact Ei |]. split; [exact Ef |]. intros j Hj. lia.
        -- intros [m [hf' [Hm [Hl [Hf Hb]]]]].
           destruct (Nat.eq_dec m i) as [-> | Hne].
           ++ rewrite Ei in Hl. injection Hl as <-. congruence.
           ++ exfalso. specialize (Hb i ltac:(lia)). rewrite Ei in Hb.
              specialize (Hb hf eq_refl). apply find_entry_None in Hb. congruence.
      * apply Hshift; [| apply IH].
        intros hf' Hh. injection Hh as <-. apply find_entry_None. exact Ef.
Qed.

(** [resolveHashFunc] returns the first entry with the given name in the first of the ten libraries that has one, and NULL exactly when none of the ten libraries has such an entry. *)
Theorem resolveHashFunc_first_match : forall libs name,
  (forall e, resolveHashFunc libs name = Some e <->
     exists i hf pre post, (i < MAX_HASHLIBS)%nat /\ libs i = Lib hf /\
       hf = pre ++ e :: post /\ hashName e = name /\
       Forall (fun e' => hashName e' <> name) pre /\
       forall j hf', (j < i)%nat -> libs j = Lib hf' -> Forall (fun e' => hashName e' <> name) hf') /\
  (resolveHashFunc libs name = None <->
     forall i hf, (i < MAX_HASHLIBS)%nat -> libs i = Lib hf ->
       Forall (fun e' => hashName e' <> name) hf).
Proof.
  intros libs name. unfold resolveHashFunc. split.
  - intros e. rewrite resolve_loop_Some. split.
    + intros [m [hf [Hm [Hl [Hf Hb]]]]]. apply find_entry_Some in Hf.
      destruct Hf as [pre [post [Hh [Hn Hp]]]].
      exists m, hf, pre, post. split; [lia |]. repeat (split; [assumption |]).
      intros j hf' Hj Hl'. apply (Hb j ltac:(lia) hf' Hl').
    + intros [m [hf [pre [post [Hm [Hl [Hh [Hn [Hp Hb]]]]]]]]].
      exists m, hf. split; [lia |]. split; [exact Hl |].
      split; [apply find_entry_Some; exists pre, post; auto |].
      intros j Hj hf' Hl'. exact (Hb j hf' ltac:(lia) Hl').
  - rewrite resolve_loop_None. split.
    + intros Hr i hf Hi Hl. exact (Hr i ltac:(cbn in Hi |- *; lia) hf Hl).
    + intros Hr m Hm hf Hl. exact (Hr m hf ltac:(cbn in Hm |- *; lia) Hl).
Qed.

(* ------------------------------------------------------------------ *)
(** ** [searchRainbowTable] *)

Lemma parseTablename_generated : forall name chainNum chainLen index,
  valid_hash_name name ->
  0 <= chainNum < 2 ^ 32 -> 0 <= chainLen < 2 ^ 32 -> 0 <= index < 2 ^ 32 ->
  parseTablename (generateTableName name chainNum chainLen index) =
  mkParse 1 (Some name) (Some chainNum) (Some chainLen).
Proof.
  intros name cn cl idx [Hne [Hl Hok]] Hcn Hcl Hidx.
  destruct (name_ok_facts name Hok) as [Hsp [Hsl Hdot]].
  rewrite generateTableName_eq by assumption.
  unfold parseTablename.
  rewrite basename_plain.
  2: { destruct name; [contradiction | discriminate]. }
  2: { destruct (fmt_u_facts cn Hcn) as [F1 _]. destruct (fmt_u_facts cl Hcl) as [F2 _].
       destruct (fmt_u_facts idx Hidx) as [F3 _].
       repeat (rewrite forallb_app; cbn [forallb]).
       rewrite Hsl, F1, F2, F3. reflexivity. }
  rewrite strchr_app by exact Hdot.
  rewrite set_char_app.
  change (parse_fmt (list_ascii_of_string "%s %u.%u.%u.rt")) with tablename_scan_fmt.
  unfold tablename_scan_fmt.
  rewrite sscanf_s_step with (w := name) (rest := " "%char :: _)
    by (apply scan_s_word; assumption).
  rewrite sscanf_blank_step, skip_ws_blank, skip_ws_fmt_u by exact Hcn.
  rewrite sscanf_u_step with (n := cn) (rest := "."%char :: _)
    by (apply scan_u_fmt_u; exact Hcn).
  rewrite sscanf_lit_step by reflexivity.
  rewrite sscanf_u_step with (n := cl) (rest := "."%char :: _)
    by (apply scan_u_fmt_u; exact Hcl).
  rewrite sscanf_lit_step by reflexivity.
  rewrite sscanf_u_step with (n := idx) (rest := "."%char :: _)
    by (apply scan_u_fmt_u; exact Hidx).
  rewrite !sscanf_lit_step by reflexivity.
  reflexivity.
Qed.

(** On a file name produced by [generateTableName], [searchRainbowTable] searches the mapped table with the hash function, chain count and chain length encoded in that name. *)
Theorem searchRainbowTable_generated_name :
  forall libs files name0 cn0 cl0 name chainNum chainLen index targetHash,
  valid_hash_name name ->
  0 <= chainNum < 2 ^ 32 -> 0 <= chainLen < 2 ^ 32 -> 0 <= index < 2 ^ 32 ->
  let tableName := generateTableName name chainNum chainLen index in
  searchRainbowTable libs files name0 cn0 cl0 tableName targetHash =
  match resolveHashFunc libs name with
  | None => Done (-1, None)
  | Some e =>
      match files tableName with
      | None => Done (-1, None)
      | Some table =>
          found <- searchHashInMemory table (Z.to_nat chainNum) (Z.to_nat chainLen)
                     (hashFunc e) (Z.to_nat (hashLen e)) targetHash ;;
          Done (match found with Some s => (1, Some s) | None => (0, None) end)
      end
  end.
Proof.
  intros libs files name0 cn0 cl0 name cn cl idx target Hv Hcn Hcl Hidx tn.
  unfold searchRainbowTable. subst tn.
  rewrite parseTablename_generated by assumption. cbn [ret out_hashFuncName out_chainNum out_chainLen].
  replace (1 <? 0) with false by reflexivity.
  destruct (resolveHashFunc libs name) as [e |]; [| reflexivity].
  destruct (files _) as [t |]; [| reflexivity].
  destruct (searchHashInMemory _ _ _ _ _ _) as [[s |] | i |]; reflexivity.
Qed.

Lemma searchRainbowTable_generated_name_witness :
  (valid_hash_name (list_ascii_of_string "md5") /\
   0 <= 1000 < 2 ^ 32 /\ 0 <= 100 < 2 ^ 32 /\ 0 <= 0 < 2 ^ 32) /\
  searchRainbowTable (fun _ => NoLib) (fun _ => None) [] 0 0
    (generateTableName (list_ascii_of_string "md5") 1000 100 0) [] =
  match resolveHashFunc (fun _ => NoLib) (list_ascii_of_string "md5") with
  | None => Done (-1, None)
  | Some e =>
      match (fun _ : cstring => @None (list chain))
              (generateTableName (list_ascii_of_string "md5") 1000 100 0) with
      | None => Done (-1, None)
      | Some table =>
          found <- searchHashInMemory table (Z.to_nat 1000) (Z.to_nat 100)
                     (hashFunc e) (Z.to_nat (hashLen e)) [] ;;
          Done (match found with Some s => (1, Some s) | None => (0, None) end)
      end
  end.
Proof.
  assert (Hv : valid_hash_name (list_ascii_of_string "md5"))
    by (split; [discriminate | split; [cbn; lia | reflexivity]]).
  assert (H1 : 0 <= 1000 < 2 ^ 32) by lia. assert (H2 : 0 <= 100 < 2 ^ 32) by lia.
  assert (H3 : 0 <= 0 < 2 ^ 32) by lia.
  split; [split; [exact Hv | split; [exact H1 | split; [exact H2 | exact H3]]] |].
  exact (searchRainbowTable_generated_name (fun _ => NoLib) (fun _ => None) [] 0 0 _ 1000 100 0 []
           Hv H1 H2 H3).
Defined.

(** When the base name of the table file has no dot, [searchRainbowTable] returns -1 without touching the file. *)
Theorem searchRainbowTable_no_dot : forall libs files name0 cn0 cl0 tableName targetHash,
  ~ In "."%char (basename tableName) ->
  searchRainbowTable libs files name0 cn0 cl0 tableName targetHash = Done (-1, None).
Proof.
  intros libs files name0 cn0 cl0 tn target H. unfold searchRainbowTable, parseTablename.
  rewrite (proj2 (strchr_None_iff _ _) H). reflexivity.
Qed.

Lemma searchRainbowTable_no_dot_witness :
  ~ In "."%char (basename (list_ascii_of_string "tables.d/md5")) /\
  searchRainbowTable (fun _ => NoLib) (fun _ => Some []) [] 0 0
    (list_ascii_of_string "tables.d/md5") [] = Done (-1, None).
Proof.
  assert (H : ~ In "."%char (basename (list_ascii_of_string "tables.d/md5"))).
  { vm_compute. intros [E | [E | [E | []]]]; discriminate. }
  split; [exact H | exact (searchRainbowTable_no_dot _ _ [] 0 0 _ [] H)].
Defined.

(* ------------------------------------------------------------------ *)
(** ** [bytesFromHash] and [main] *)

Lemma hex_pair_scan : forall b,
  scan_x (num_string (hex_digit (bval b / 16)) (hex_digit (bval b mod 16))) = Some (bval b) /\
  byte_of_Z (bval b) = b.
Proof. intros b. destruct b; split; vm_compute; reflexivity. Qed.

Lemma hex_loop_shift : forall l a b k i h,
  hex_loop (a :: b :: l) k (S (S i)) h = hex_loop l k i h.
Proof.
  intros l a b k. induction k as [|k IH]; intros i h; [reflexivity |].
  cbn [hex_loop]. change (nth (S (S i)) (a :: b :: l) Ascii.zero) with (nth i l Ascii.zero).
  change (nth (S (S (S i))) (a :: b :: l) Ascii.zero) with (nth (S i) l Ascii.zero).
  f_equal. apply IH.
Qed.

Lemma hex_loop_encode : forall bs rest h,
  hex_loop (hex_encode bs ++ rest) (List.length bs) 0 h = bs.
Proof.
  intros bs. induction bs as [|b bs IH]; intros rest h; [reflexivity |].
  cbn [hex_encode flat_map List.length app].
  change (flat_map (fun b => [hex_digit (bval b / 16); hex_digit (bval b mod 16)]) bs)
    with (hex_encode bs).
  cbn [hex_loop]. change (nth 0 _ Ascii.zero) with (hex_digit (bval b / 16)).
  change (nth 1 _ Ascii.zero) with (hex_digit (bval b mod 16)).
  destruct (hex_pair_scan b) as [Hs Hb]. rewrite Hs, Hb.
  rewrite hex_loop_shift. rewrite IH. reflexivity.
Qed.

(** [bytesFromHash] on the lowercase hex encoding of 16 bytes gives back those bytes, followed by zeros in the rest of the 64-byte buffer. *)
Theorem bytesFromHash_hex_roundtrip : forall bs rest hexnum0,
  List.length bs = 16%nat ->
  bytesFromHash (hex_encode bs ++ rest) hexnum0 = bs ++ repeat Byte.x00 48.
Proof.
  intros bs rest h Hl. unfold bytesFromHash. rewrite <- Hl at 1.
  rewrite hex_loop_encode. reflexivity.
Qed.

Lemma bytesFromHash_hex_roundtrip_witness :
  let bs := [Byte.x00; Byte.x11; Byte.x22; Byte.x33; Byte.x44; Byte.x55; Byte.x66; Byte.x77;
             Byte.x88; Byte.x99; Byte.xaa; Byte.xbb; Byte.xcc; Byte.xdd; Byte.xee; Byte.xff] in
  List.length bs = 16%nat /\
  bytesFromHash (hex_encode bs ++ list_ascii_of_string "0123") 5 = bs ++ repeat Byte.x00 48.
Proof.
  intros bs. assert (H : List.length bs = 16%nat) by reflexivity.
  split; [exact H | exact (bytesFromHash_hex_roundtrip bs _ 5 H)].
Defined.

(* main *)
Lemma streq_refl : forall a, streq a a = true.
Proof. intros a. apply streq_true. reflexivity. Qed.

Lemma streq_sym : forall a b, streq a b = streq b a.
Proof.
  intros a b. destruct (streq a b) eqn:E; destruct (streq b a) eqn:F; try reflexivity.
  - apply streq_true in E. subst. rewrite streq_refl in F. discriminate.
  - apply streq_true in F. subst. rewrite streq_refl in E. discriminate.
Qed.

(** In crack mode, on every run in which [searchHashOnline] returns, [main] exits with 0, makes no table-generation call and never prints the error message.  When the hash name is unknown, [searchHashOnline] does return, with 0, and [main] prints only the not-found message. *)
Theorem main_crack_never_reports_error : forall libs workers seed0 prog name hash search res,
  searchHashOnline libs workers seed0 name = Some res ->
  let r := main [prog; lit "crack"; name; hash] search (fun _ _ => res) in
  exit_code r = 0 /\ gen_calls r = [] /\
  ~ In (Stderr, ("[-] An error occured." ++ nl)%string) (printed r) /\
  (resolveHashFunc libs name = None ->
   res = (0, seed0) /\ printed r = [(Stdout, ("[-] Seed not found :-(" ++ nl)%string)]).
Proof.
  intros libs workers seed0 prog name hash search res Hs r. subst r. unfold main.
  cbn [List.length nth Nat.ltb Nat.leb Nat.eqb negb].
  replace (streq (list_ascii_of_string "generate") (lit "crack")) with false by reflexivity.
  replace (streq (list_ascii_of_string "search") (lit "crack")) with false by reflexivity.
  replace (streq (lit "crack") (list_ascii_of_string "crack")) with true by reflexivity.
  cbn [exit_code gen_calls printed]. unfold searchHashOnline in Hs.
  destruct (resolveHashFunc libs name) as [e |].
  - split; [reflexivity | split; [reflexivity |]].
    split; [| discriminate].
    destruct (workers e) as [[[|] sd] |]; [| | discriminate];
      injection Hs as <-; unfold report; cbn [Z.ltb Z.eqb Z.compare];
      intros [E | []]; discriminate.
  - injection Hs as <-.
    split; [reflexivity | split; [reflexivity |]].
    split; [| split; reflexivity].
    unfold report; cbn [Z.ltb Z.eqb Z.compare]. intros [E | []]; discriminate.
Qed.

Lemma main_crack_never_reports_error_witness :
  let libs := fun i : nat => if (i =? 2)%nat then Lib [demo_entry] else NoLib in
  searchHashOnline libs (fun _ => Some (true, 7)) 0 (lit "md5") = Some (1, 7) /\
  (let r := main [lit "snowflake"; lit "crack"; lit "md5"; lit "00"] (fun _ _ => (0, 0))
              (fun _ _ => (1, 7)) in
   exit_code r = 0 /\ gen_calls r = [] /\
   ~ In (Stderr, ("[-] An error occured." ++ nl)%string) (printed r) /\
   (resolveHashFunc libs (lit "md5") = None ->
    (1, 7) = (0, 0) /\ printed r = [(Stdout, ("[-] Seed not found :-(" ++ nl)%string)])).
Proof.
  intros libs.
  assert (Hs : searchHashOnline libs (fun _ => Some (true, 7)) 0 (lit "md5") = Some (1, 7))
    by reflexivity.
  split; [exact Hs |].
  exact (main_crack_never_reports_error libs (fun _ => Some (true, 7)) 0
           (lit "snowflake") (lit "md5") (lit "00") (fun _ _ => (0, 0)) (1, 7) Hs).
Defined.

Lemma gen_calls_loop_seq : forall cn cl name k i,
  gen_calls_loop cn cl name k (Z.of_nat i) = map (fun j => (cn, cl, Z.of_nat j, name)) (seq i k).
Proof.
  intros cn cl name k. induction k as [|k IH]; intros i; [reflexivity |].
  cbn [gen_calls_loop seq map]. f_equal. rewrite <- IH. f_equal. lia.
Qed.

Lemma atoi_negative : forall n, 1 <= n <= 2 ^ 31 -> atoi ("-"%char :: fmt_u n) = - n.
Proof.
  intros n Hn. destruct (fmt_u_spec n ltac:(lia)) as [d [ds [Heq [Hd [Hv _]]]]].
  unfold atoi.
  change (skip_ws ("-"%char :: fmt_u n)) with ("-"%char :: fmt_u n).
  change (split_sign ("-"%char :: fmt_u n)) with (true, fmt_u n). cbv iota beta.
  rewrite Heq, span_all by exact Hd. cbn [fst]. rewrite Hv.
  replace (n >? 2 ^ 63) with false by (symmetry; rewrite Z.gtb_ltb; apply Z.ltb_ge; lia).
  unfold to_int32. replace (u32 (- n)) with (2 ^ 32 - n).
  - replace (2 ^ 32 - n <? 2 ^ 31) with false by (symmetry; apply Z.ltb_ge; lia). lia.
  - unfold u32. replace (- n) with ((2 ^ 32 - n) + (-1) * 2 ^ 32) by lia.
    rewrite Z.mod_add by lia. rewrite Z.mod_small by lia. reflexivity.
Qed.

(** In generate mode a negative index count [-n] is wrapped to [2^32 - n], so [main] calls [generateRainbowTable] for the indices [0 .. 2^32 - n - 1] with no output and exit status 0. *)
Theorem main_generate_negative_count : forall prog cn cl n name search crack,
  1 <= n <= 2 ^ 31 ->
  let r := main [prog; lit "generate"; cn; cl; "-"%char :: fmt_u n; name] search crack in
  gen_calls r = map (fun i => (u32 (atoi cn), u32 (atoi cl), Z.of_nat i, name))
                    (seq 0 (Z.to_nat (2 ^ 32 - n))) /\
  printed r = [] /\ exit_code r = 0.
Proof.
  intros prog cn cl n name search crack Hn r. subst r. unfold main.
  cbn [List.length nth Nat.ltb Nat.leb Nat.eqb negb].
  replace (streq (list_ascii_of_string "generate") (lit "generate")) with true by reflexivity.
  cbn [gen_calls printed exit_code]. rewrite atoi_negative by exact Hn.
  replace (u32 (- n)) with (2 ^ 32 - n).
  - rewrite <- (gen_calls_loop_seq _ _ _ _ 0). split; [reflexivity | split; reflexivity].
  - unfold u32. replace (- n) with ((2 ^ 32 - n) + (-1) * 2 ^ 32) by lia.
    rewrite Z.mod_add by lia. rewrite Z.mod_small by lia. reflexivity.
Qed.

Lemma main_generate_negative_count_witness :
  1 <= 1 <= 2 ^ 31 /\
  let r := main [lit "snowflake"; lit "generate"; lit "1000"; lit "100"; "-"%char :: fmt_u 1;
                 lit "md5"] (fun _ _ => (0, 0)) (fun _ _ => (0, 0)) in
  gen_calls r = map (fun i => (u32 (atoi (lit "1000")), u32 (atoi (lit "100")), Z.of_nat i, lit "md5"))
                    (seq 0 (Z.to_nat (2 ^ 32 - 1))) /\
  printed r = [] /\ exit_code r = 0.
Proof.
  assert (H : 1 <= 1 <= 2 ^ 31) by lia.
  split; [exact H | exact (main_generate_negative_count _ _ _ 1 _ _ _ H)].
Defined.

(** [main] exits with 0 or 1, and with 1 exactly when a mode is given with the wrong number of arguments for it or is not one of generate, search and crack. *)
Theorem main_exit_status : forall argv search crack,
  (exit_code (main argv search crack) = 0 \/ exit_code (main argv search crack) = 1) /\
  (exit_code (main argv search crack) = 1 <->
   (2 <= List.length argv)%nat /\
   ((nth 1 argv [] = lit "generate" /\ List.length argv <> 6%nat) \/
    ((nth 1 argv [] = lit "search" \/ nth 1 argv [] = lit "crack") /\ List.length argv <> 4%nat) \/
    (nth 1 argv [] <> lit "generate" /\ nth 1 argv [] <> lit "search" /\
     nth 1 argv [] <> lit "crack"))).
Proof.
  intros argv search crack. unfold main. cbv beta zeta.
  assert (Dgs : lit "generate" <> lit "search") by discriminate.
  assert (Dgc : lit "generate" <> lit "crack") by discriminate.
  assert (Dsc : lit "search" <> lit "crack") by discriminate.
  set (m := nth 1 argv []). set (n := List.length argv).
  destruct (n <? 2)%nat eqn:Ea.
  - apply Nat.ltb_lt in Ea. cbn [exit_code]. split; [left; reflexivity |].
    split; [discriminate | lia].
  - apply Nat.ltb_ge in Ea.
    destruct (streq (list_ascii_of_string "generate") m) eqn:Eg.
    + apply streq_true in Eg. change (list_ascii_of_string "generate") with (lit "generate") in Eg.
      rewrite <- Eg.
      destruct (n =? 6)%nat eqn:E6; cbn [negb exit_code].
      * apply Nat.eqb_eq in E6. split; [left; reflexivity |].
        split; [discriminate |]. intros [_ [[_ H] | [[[H | H] _] | [H _]]]]; congruence.
      * apply Nat.eqb_neq in E6. split; [right; reflexivity |].
        split; [intros _; split; [exact Ea | left; split; [reflexivity | exact E6]] | reflexivity].
    + assert (Ng : m <> lit "generate").
      { intros H. rewrite H in Eg. rewrite streq_refl in Eg. discriminate. }
      destruct (streq (list_ascii_of_string "search") m) eqn:Es.
      * apply streq_true in Es. change (list_ascii_of_string "search") with (lit "search") in Es.
        rewrite <- Es in *.
        destruct (n =? 4)%nat eqn:E4; cbn [negb exit_code].
        -- apply Nat.eqb_eq in E4. split; [left; reflexivity |].
           split; [discriminate |]. intros [_ [[H _] | [[_ H] | [_ [H _]]]]]; congruence.
        -- apply Nat.eqb_neq in E4. split; [right; reflexivity |].
           split; [intros _; split; [exact Ea | right; left; split; [left; reflexivity | exact E4]]
                  | reflexivity].
      * assert (Ns : m <> lit "search").
        { intros H. rewrite H in Es. rewrite streq_refl in Es. discriminate. }
        destruct (streq m (list_ascii_of_string "crack")) eqn:Ec.
        -- apply streq_true in Ec. change (list_ascii_of_string "crack") with (lit "crack") in Ec.
           rewrite Ec in *.
           destruct (n =? 4)%nat eqn:E4; cbn [negb exit_code].
           ++ apply Nat.eqb_eq in E4. split; [left; reflexivity |].
              split; [discriminate |]. intros [_ [[H _] | [[_ H] | [_ [_ H]]]]]; congruence.
           ++ apply Nat.eqb_neq in E4. split; [right; reflexivity |].
              split; [intros _; split; [exact Ea | right; left; split; [right; reflexivity | exact E4]]
                     | reflexivity].
        -- assert (Nc : m <> lit "crack").
           { intros H. rewrite H in Ec. rewrite streq_refl in Ec. discriminate. }
           cbn [exit_code]. split; [right; reflexivity |].
           split; [intros _; split; [exact Ea | right; right; auto] | reflexivity].
Qed.

(* ------------------------------------------------------------------ *)
(** ** [hexConvert] *)

Lemma hexconv_digit : forall d, 0 <= d < 16 ->
  let c := nth (Z.to_nat d) hexconv_digits "0"%char in
  xdigit_val c = d /\ is_lower_xdigit c = true /\ (c = "0"%char <-> d = 0).
Proof.
  intros d Hd c. subst c.
  assert (d = 0 \/ d = 1 \/ d = 2 \/ d = 3 \/ d = 4 \/ d = 5 \/ d = 6 \/ d = 7 \/ d = 8 \/
          d = 9 \/ d = 10 \/ d = 11 \/ d = 12 \/ d = 13 \/ d = 14 \/ d = 15) by lia.
  repeat (destruct H as [-> | H];
    [split; [reflexivity | split; [reflexivity | split; intros; (discriminate || reflexivity)]] |]).
  subst d. split; [reflexivity | split; [reflexivity | split; intros; (discriminate || reflexivity)]].
Qed.

Lemma xdigits_value_snoc : forall ds c,
  xdigits_value (ds ++ [c]) = xdigits_value ds * 16 + xdigit_val c.
Proof. intros ds c. unfold xdigits_value. rewrite fold_left_app. reflexivity. Qed.

Lemma hex_do_spec : forall f value acc len k,
  0 <= value < 16 ^ Z.of_nat (S f) -> (S f < k)%nat ->
  exists ds, hex_do k value acc len = ((k - List.length ds)%nat, ds ++ acc, len + Z.of_nat (List.length ds)) /\
    (1 <= List.length ds <= S f)%nat /\ xdigits_value ds = value /\
    forallb is_lower_xdigit ds = true /\ hex_no_leading_zero ds.
Proof.
  intros f. induction f as [|f IH]; intros v acc len k Hv Hk;
    (destruct k as [|k]; [lia |]); cbn [hex_do];
    pose proof (Z.mod_pos_bound v 16 ltac:(lia)) as Hm;
    pose proof (Z.div_mod v 16 ltac:(lia)) as Hdm;
    destruct (hexconv_digit (v mod 16) Hm) as [Hval [Hx Hz]];
    set (c := nth (Z.to_nat (v mod 16)) hexconv_digits "0"%char) in *.
  - replace (v / 16) with 0 by (symmetry; apply Z.div_small; cbn in Hv; lia).
    replace ((0 <? k)%nat && negb (0 =? 0)) with false by (rewrite andb_false_r; reflexivity).
    exists [c]. split; [cbn [List.length app]; apply pair_equal_spec; split; [apply pair_equal_spec; split; [lia | reflexivity] | lia] |].
    split; [cbn; lia |]. split; [unfold xdigits_value; cbn [fold_left]; rewrite Hval; cbn in Hv; rewrite Z.mod_small by lia; lia |].
    split; [cbn [forallb]; rewrite Hx; reflexivity |].
    destruct (Z.eq_dec v 0) as [E | E].
    + left. f_equal. apply Hz. rewrite E. reflexivity.
    + right. cbn. intros Hc. apply Hz in Hc. cbn in Hv. rewrite Z.mod_small in Hc by lia. lia.
  - destruct (Z.eq_dec (v / 16) 0) as [E | E].
    + rewrite E. replace ((0 <? k)%nat && negb (0 =? 0)) with false by (rewrite andb_false_r; reflexivity).
      exists [c]. split; [cbn [List.length app]; apply pair_equal_spec; split; [apply pair_equal_spec; split; [lia | reflexivity] | lia] |].
      split; [cbn; lia |]. split; [unfold xdigits_value; cbn [fold_left]; rewrite Hval; lia |].
      split; [cbn [forallb]; rewrite Hx; reflexivity |].
      destruct (Z.eq_dec v 0) as [E0 | E0].
      * left. f_equal. apply Hz. rewrite E0. reflexivity.
      * right. cbn. intros Hc. apply Hz in Hc. lia.
    + replace ((0 <? k)%nat && negb (v / 16 =? 0)) with true
        by (symmetry; apply andb_true_iff; split; [apply Nat.ltb_lt; lia |
            apply negb_true_iff, Z.eqb_neq; exact E]).
      assert (Hv' : 0 <= v / 16 < 16 ^ Z.of_nat (S f)).
      { split; [apply Z.div_pos; lia |]. apply Z.div_lt_upper_bound; [lia |].
        rewrite Nat2Z.inj_succ, Z.pow_succ_r in Hv by lia. lia. }
      destruct (IH (v / 16) (c :: acc) (len + 1) k Hv' ltac:(lia))
        as [ds [Heq [Hl [Hdv [Hdx Hlz]]]]].
      rewrite Heq. exists (ds ++ [c]).
      rewrite length_app, <- app_assoc. cbn [List.length app].
      split; [apply pair_equal_spec; split; [apply pair_equal_spec; split; [lia | reflexivity] | lia] |].
      split; [lia |]. split; [rewrite xdigits_value_snoc, Hdv, Hval; lia |].
      split; [rewrite forallb_app, Hdx; cbn [forallb]; rewrite Hx; reflexivity |].
      right. destruct ds as [|d ds]; [cbn in Hl; lia |]. cbn.
      destruct Hlz as [Hlz | Hlz]; [| exact Hlz].
      injection Hlz as -> ->. cbn in Hdv. exfalso. apply E. rewrite <- Hdv. reflexivity.
Qed.

(** For 32-bit [n1] and [n2], [hexConvert] writes the lowercase hex digits ([0-9], [a-f]) of [n1] followed by those of [n2], each without leading zeros, and returns their total length. *)
Theorem hexConvert_concat : forall n1 n2, 0 <= n1 < 2 ^ 32 -> 0 <= n2 < 2 ^ 32 ->
  exists s1 s2, hexConvert n1 n2 = (s1 ++ s2, Z.of_nat (List.length (s1 ++ s2))) /\
    xdigits_value s1 = n1 /\ xdigits_value s2 = n2 /\
    forallb is_lower_xdigit (s1 ++ s2) = true /\
    hex_no_leading_zero s1 /\ hex_no_leading_zero s2.
Proof.
  intros n1 n2 H1 H2. unfold hexConvert.
  destruct (hex_do_spec 7 n2 [] 0 31) as [s2 [E2 [L2 [V2 [X2 Z2]]]]]; [cbn; lia | lia |].
  rewrite E2. rewrite app_nil_r.
  destruct (hex_do_spec 7 n1 s2 (0 + Z.of_nat (List.length s2)) (31 - List.length s2))
    as [s1 [E1 [L1 [V1 [X1 Z1]]]]]; [cbn; lia | lia |].
  rewrite E1. exists s1, s2. split; [| split; [exact V1 | split; [exact V2 |]]].
  - rewrite length_app. f_equal. lia.
  - split; [rewrite forallb_app, X1, X2; reflexivity | split; assumption].
Qed.

Lemma hexConvert_concat_witness :
  (0 <= 1 < 2 ^ 32 /\ 0 <= 35 < 2 ^ 32) /\
  exists s1 s2, hexConvert 1 35 = (s1 ++ s2, Z.of_nat (List.length (s1 ++ s2))) /\
    xdigits_value s1 = 1 /\ xdigits_value s2 = 35 /\
    forallb is_lower_xdigit (s1 ++ s2) = true /\
    hex_no_leading_zero s1 /\ hex_no_leading_zero s2.
Proof.
  assert (H1 : 0 <= 1 < 2 ^ 32) by lia. assert (H2 : 0 <= 35 < 2 ^ 32) by lia.
  split; [split; [exact H1 | exact H2] | exact (hexConvert_concat 1 35 H1 H2)].
Defined.
